(** * piker: order client (piker/exchange/_client.py) and broker API proxy
      (piker/brokers/core.py)

    A shallow embedding of the client side of the EMS order bus: the order
    book (registry of sent commands plus the memory channel towards the EMS
    daemon), the per-actor singleton factory [get_orders], the relay
    generator [send_order_cmds], the readiness handshake of [open_ems], and
    the call-by-name broker proxy [api].

    Python objects that are mutated in place are modelled by explicit state
    passing; exceptions by a sum in the result, with the state kept as it was
    when the exception left the function. *)

From Stdlib Require Import Floats.PrimFloat.
From stdpp Require Import gmap strings list fin_maps.

Local Open Scope string_scope.
Local Open Scope list_scope.
Local Open Scope nat_scope.
#[local] Set Warnings "-clear-no-such-hyp".

(** ** Python values carried by order messages *)

(** The values that occur in the dicts built by [OrderBook.send] and
    [OrderBook.cancel]: [str], [float] (IEEE binary64, as Rocq's primitive
    floats) and the broker collection of a symbol. *)
Inductive value :=
| VStr (s : string)
| VFloat (x : float)
| VBrokers (bs : gset string).

(** A Python [dict] with [str] keys. *)
Abbreviation pydict := (gmap string value).

(** A dict display [{k1: v1, ..., kn: vn}]: the items are inserted from left
    to right, a later item replacing an earlier one with the same key. *)
Definition dict_display (items : list (string * value)) : pydict :=
  foldl (λ d kv, <[kv.1 := kv.2]> d) ∅ items.

(** ** Exceptions and the state-and-exception monad *)

Inductive exn :=
| KeyError (k : string)      (* [d[k]] on a missing key *)
| WouldBlock                 (* trio.WouldBlock: the channel buffer is full *)
| TooSlowError.              (* trio.TooSlowError: [fail_after] expired *)

(** A method run on a mutable object of type [S]: the object after the call
    and either the exception raised or the value returned. *)
Definition Py (S A : Type) : Type := S → S * (exn + A).

#[global] Instance Py_ret {S} : MRet (Py S) := λ A a s, (s, inr a).

#[global] Instance Py_bind {S} : MBind (Py S) := λ A B k m s,
  match m s with
  | (s', inr a) => k a s'
  | (s', inl e) => (s', inl e)
  end.

Definition raise {S A} (e : exn) : Py S A := λ s, (s, inl e).

(** [d[k]] on a dict that is not part of the state. *)
Definition getitem {S} (d : pydict) (k : string) : Py S value :=
  match d !! k with
  | Some v => mret v
  | None => raise (KeyError k)
  end.

(** ** trio's memory channel *)

(** Modelled from the spec: the memory channel of the trio library
    ([trio.open_memory_channel], [send_nowait], the receive side), which is
    not part of the repository. The spec's Command Channel: an ordered queue
    of fixed capacity; enqueue is non-blocking and fails fast with a
    distinguishable condition when the queue is full; the consumer takes
    items from the head and suspends while the queue is empty.  Neither end
    is closed anywhere in the client, so closing is not modelled. *)
Record MemoryChannelState := {
  max_buffer_size : nat;
  data : list pydict;
}.

Definition open_memory_channel (max_buffer_size : nat) : MemoryChannelState :=
  {| max_buffer_size := max_buffer_size; data := [] |}.

Definition send_nowait (v : pydict) : Py MemoryChannelState unit := λ st,
  if decide (length (data st) < max_buffer_size st)
  then ({| max_buffer_size := max_buffer_size st; data := data st ++ [v] |}, inr ())
  else (st, inl WouldBlock).

(** The receive side as the relay's [async for] uses it: [None] stands for
    the consumer being suspended on an empty queue. *)
Definition receive (st : MemoryChannelState) : MemoryChannelState * option pydict :=
  match data st with
  | v :: rest => ({| max_buffer_size := max_buffer_size st; data := rest |}, Some v)
  | [] => (st, None)
  end.

(** ** Symbol *)

(** Modelled from the spec: the [Symbol] class of [piker.data._source], of
    which the client reads two attributes: the instrument key and the set of
    eligible broker identifiers. *)
Record Symbol := {
  key : string;
  brokers : gset string;
}.

(** ** OrderBook *)

(** The dataclass [OrderBook].  [trio.open_memory_channel] returns the two
    ends of one channel state, and [get_orders] passes both to the
    constructor: [_to_ems] and [_from_order_book] are the same queue, held
    here once.  The field [_ready_to_receive] has a default created when the
    class body runs, shared by every instance: it lives in the process
    state below. *)
Record OrderBook := {
  _to_ems : MemoryChannelState;
  _sent_orders : gmap string pydict;
}.

Definition _from_order_book (self : OrderBook) : MemoryChannelState := _to_ems self.

(** [OrderBook(send_end, receive_end)]: [_sent_orders] comes from
    [field(default_factory=dict)]. *)
Definition OrderBook_init (chan : MemoryChannelState) : OrderBook :=
  {| _to_ems := chan; _sent_orders := ∅ |}.

(** [self._sent_orders[uuid] = cmd] *)
Definition sent_orders_setitem (uuid : string) (cmd : pydict) : Py OrderBook unit := λ self,
  ({| _to_ems := _to_ems self; _sent_orders := <[uuid := cmd]> (_sent_orders self) |}, inr ()).

(** [self._sent_orders[uuid]] *)
Definition sent_orders_getitem (uuid : string) : Py OrderBook pydict := λ self,
  match _sent_orders self !! uuid with
  | Some cmd => (self, inr cmd)
  | None => (self, inl (KeyError uuid))
  end.

(** [self._to_ems.send_nowait(msg)] *)
Definition to_ems_send_nowait (msg : pydict) : Py OrderBook unit := λ self,
  let '(chan, r) := send_nowait msg (_to_ems self) in
  ({| _to_ems := chan; _sent_orders := _sent_orders self |}, r).

(** The command dict built by [send]. *)
Definition order_cmd (uuid : string) (symbol : Symbol) (price size : float)
    (action exec_mode : string) : pydict :=
  dict_display [
    ("action", VStr action);
    ("price", VFloat price);
    ("size", VFloat size);
    ("symbol", VStr (key symbol));
    ("brokers", VBrokers (brokers symbol));
    ("oid", VStr uuid);
    ("exec_mode", VStr exec_mode)
  ].

Definition send (uuid : string) (symbol : Symbol) (price size : float)
    (action exec_mode : string) : Py OrderBook pydict :=
  let cmd := order_cmd uuid symbol price size action exec_mode in
  _ ← sent_orders_setitem uuid cmd;
  _ ← to_ems_send_nowait cmd;
  mret cmd.

(** [async def modify(self, oid, price) -> bool: ...]: the body is the
    ellipsis expression; awaiting the coroutine returns [None]. *)
Definition modify (oid : string) (price : float) : Py OrderBook unit :=
  mret ().

(** The message dict built by [cancel]. *)
Definition cancel_msg (uuid : string) (symbol : value) : pydict :=
  dict_display [
    ("action", VStr "cancel");
    ("oid", VStr uuid);
    ("symbol", symbol)
  ].

(** [cancel] has no [return]: the result is [None]. *)
Definition cancel (uuid : string) : Py OrderBook unit :=
  cmd ← sent_orders_getitem uuid;
  symbol ← getitem cmd "symbol";
  to_ems_send_nowait (cancel_msg uuid symbol).

(** ** Process state *)

(** [trio.Event]: a flag that [set] raises and nothing lowers. *)
Record Event := {
  _flag : bool;
}.

Definition Event_new : Event := {| _flag := false |}.
Definition Event_set (ev : Event) : Event := {| _flag := true |}.
Definition is_set (ev : Event) : bool := _flag ev.

(** Object identities of [OrderBook] instances. *)
Abbreviation ref := nat.

#[global] Instance OrderBook_inhabited : Inhabited OrderBook :=
  populate (OrderBook_init (open_memory_channel 0)).

(** What one actor process holds: the [OrderBook] instances made so far,
    by identity; the one [trio.Event] that the class body of [OrderBook]
    created as default of [_ready_to_receive] (every instance refers to it);
    and the module global [_orders].  A reference is only ever obtained from
    the allocation in [get_orders], so it is always in [objects]. *)
Record Process := {
  objects : gmap ref OrderBook;
  _ready_to_receive : Event;
  _orders : option ref;
}.

(** The process after the module is imported. *)
Definition Process_init : Process :=
  {| objects := ∅; _ready_to_receive := Event_new; _orders := None |}.

(** A method call on the instance with identity [r]. *)
Definition on_book {A} (r : ref) (m : Py OrderBook A) : Py Process A := λ p,
  let '(b, res) := m (objects p !!! r) in
  ({| objects := <[r := b]> (objects p);
      _ready_to_receive := _ready_to_receive p;
      _orders := _orders p |}, res).

(** [get_orders(emsd_uid)]: the branch on [emsd_uid] is [pass]. *)
Definition get_orders (emsd_uid : option (string * string)) : Py Process ref := λ p,
  match _orders p with
  | None =>
      let r := fresh (dom (objects p)) in
      ({| objects := <[r := OrderBook_init (open_memory_channel 100)]> (objects p);
          _ready_to_receive := _ready_to_receive p;
          _orders := Some r |}, inr r)
  | Some r => (p, inr r)
  end.

(** [book._ready_to_receive.set()] *)
Definition ready_to_receive_set : Py Process unit := λ p,
  ({| objects := objects p;
      _ready_to_receive := Event_set (_ready_to_receive p);
      _orders := _orders p |}, inr ()).

(** ** The relay generator [send_order_cmds] *)

(** Where the generator object stands between two requests for its next
    item: not started, or inside the [async for] over the channel of
    [book]. *)
Inductive relay_state :=
| RelayCreated
| RelayDraining (book : ref).

(** What a request for the next item meets: the command of the [yield], or
    the generator suspended in the receive on an empty channel. *)
Inductive relay_out :=
| RelayYield (cmd : pydict)
| RelaySuspended.

(** One pass of [async for cmd in orders_stream: ...; yield cmd]. *)
Definition relay_loop (book : ref) : Py Process (relay_state * relay_out) := λ p,
  let b := objects p !!! book in
  let '(chan, item) := receive (_from_order_book b) in
  let p' := {| objects := <[book := {| _to_ems := chan; _sent_orders := _sent_orders b |}]> (objects p);
               _ready_to_receive := _ready_to_receive p;
               _orders := _orders p |} in
  match item with
  | Some cmd => (p', inr (RelayDraining book, RelayYield cmd))
  | None => (p', inr (RelayDraining book, RelaySuspended))
  end.

(** The generator resumed once: on the first request the body runs from its
    start ([get_orders], the gate is set), then the loop. *)
Definition send_order_cmds (g : relay_state) : Py Process (relay_state * relay_out) :=
  match g with
  | RelayCreated =>
      book ← get_orders None;
      _ ← ready_to_receive_set;
      relay_loop book
  | RelayDraining book => relay_loop book
  end.

(** ** The client actor: order entry, relay and clock *)

(** What can happen in the actor, one at a time (trio schedules its tasks
    cooperatively on one thread): order-entry code calls [send] or [cancel]
    on the book of [get_orders]; the consumer of the relay asks it for its
    next item; the scheduler wakes with the clock reading [now]. *)
Inductive action :=
| ActSend (uuid : string) (symbol : Symbol) (price size : float) (act exec_mode : string)
| ActCancel (uuid : string)
| ActRelayNext
| ActClock (now : float).

(** The process together with the relay generator object and what the relay
    has yielded so far, oldest first. *)
Record Actor := {
  process : Process;
  relay : relay_state;
  relayed : list pydict;
}.

Definition Actor_init : Actor :=
  {| process := Process_init; relay := RelayCreated; relayed := [] |}.

(** What the caller of an action observes. *)
Inductive outcome :=
| Returned (v : option pydict)
| Raised (e : exn)
| Next (o : relay_out)
| Idle.

Definition step (a : action) (s : Actor) : Actor * outcome :=
  match a with
  | ActSend uuid symbol price size act exec_mode =>
      let '(p, r) := (book ← get_orders None;
                      on_book book (send uuid symbol price size act exec_mode)) (process s) in
      ({| process := p; relay := relay s; relayed := relayed s |},
       match r with inr cmd => Returned (Some cmd) | inl e => Raised e end)
  | ActCancel uuid =>
      let '(p, r) := (book ← get_orders None; on_book book (cancel uuid)) (process s) in
      ({| process := p; relay := relay s; relayed := relayed s |},
       match r with inr _ => Returned None | inl e => Raised e end)
  | ActRelayNext =>
      let '(p, r) := send_order_cmds (relay s) (process s) in
      match r with
      | inr (g, RelayYield cmd) =>
          ({| process := p; relay := g; relayed := relayed s ++ [cmd] |}, Next (RelayYield cmd))
      | inr (g, RelaySuspended) =>
          ({| process := p; relay := g; relayed := relayed s |}, Next RelaySuspended)
      | inl e =>
          ({| process := p; relay := relay s; relayed := relayed s |}, Raised e)
      end
  | ActClock _ => (s, Idle)
  end.

Definition run (trace : list action) (s : Actor) : Actor :=
  foldl (λ s a, (step a s).1) s trace.

(** The book that [get_orders] returns in process [p]. *)
Definition book_of (p : Process) : OrderBook :=
  let '(p', r) := get_orders None p in
  match r with
  | inr book => objects p' !!! book
  | inl _ => inhabitant
  end.

(** The commands waiting in the channel of that book, and its registry. *)
Definition pending (s : Actor) : list pydict :=
  data (_to_ems (book_of (process s))).

Definition registry (s : Actor) : gmap string pydict :=
  _sent_orders (book_of (process s)).

(** The relay, once started, drains the book of [get_orders]. *)
Definition actor_wf (s : Actor) : Prop :=
  match relay s with
  | RelayCreated => True
  | RelayDraining book =>
      _orders (process s) = Some book ∧ is_set (_ready_to_receive (process s)) = true
  end.

(** The message a call puts on the channel when it returns normally, and
    nothing when it raises. *)
Definition enqueued_by (a : action) (s : Actor) : list pydict :=
  match a, (step a s).2 with
  | ActSend _ _ _ _ _ _, Returned (Some cmd) => [cmd]
  | ActCancel uuid, Returned _ =>
      match registry s !! uuid ≫= (.!! "symbol") with
      | Some symbol => [cancel_msg uuid symbol]
      | None => []
      end
  | _, _ => []
  end.

Fixpoint enqueued (trace : list action) (s : Actor) : list pydict :=
  match trace with
  | [] => []
  | a :: trace' => enqueued_by a s ++ enqueued trace' (step a s).1
  end.

(** ** The readiness handshake of [open_ems] *)

(** The clock readings of an action are before the deadline. *)
Definition before_deadline (deadline : float) (a : action) : bool :=
  match a with
  | ActClock now => negb (PrimFloat.leb deadline now)
  | _ => true
  end.

(** An action that is no wake-up of the scheduler. *)
Definition no_pass (a : action) : bool :=
  match a with
  | ActClock _ => false
  | _ => true
  end.

(** [Event.wait] when it finds the flag down: the task sleeps until [set]
    wakes it.  A wake-up of the scheduler with a clock reading at or past
    the deadline, while the task still sleeps, cancels the wait.  Once [set]
    has woken the task, no later clock reading can cancel it.  [None]: still
    asleep when [env] ends. *)
Fixpoint wait_parked (deadline : float) (env : list action) (s : Actor)
    : Actor * option (exn + unit) :=
  match env with
  | [] => (s, None)
  | ActClock now :: env' =>
      if PrimFloat.leb deadline now then (s, Some (inl TooSlowError))
      else wait_parked deadline env' s
  | a :: env' =>
      let s' := (step a s).1 in
      if is_set (_ready_to_receive (process s')) then (s', Some (inr ()))
      else wait_parked deadline env' s'
  end.

(** [Event.wait] when it finds the flag up: [trio.lowlevel.checkpoint()].
    The task gives way to the other tasks that are ready and goes on at the
    next wake-up of the scheduler, which first compares the clock with the
    deadline: at or past it, the checkpoint is cancelled.  [None]: no
    wake-up of the scheduler in [env]. *)
Fixpoint checkpoint (deadline : float) (env : list action) (s : Actor)
    : Actor * option (exn + unit) :=
  match env with
  | [] => (s, None)
  | ActClock now :: env' =>
      if PrimFloat.leb deadline now then (s, Some (inl TooSlowError))
      else (s, Some (inr ()))
  | a :: env' => checkpoint deadline env' (step a s).1
  end.

(** [with trio.fail_after(10): await book._ready_to_receive.wait()], seen
    from the waiting task, with [env] what the rest of the actor and the
    scheduler do in the meantime; a cancelled wait leaves [fail_after] as
    [TooSlowError]. *)
Definition wait_ready (deadline : float) (env : list action) (s : Actor)
    : Actor * option (exn + unit) :=
  if is_set (_ready_to_receive (process s)) then checkpoint deadline env s
  else wait_parked deadline env s.

Section open_ems.
(** The handle of the daemon's event stream, as [portal.run(_ems_main,
    ...)] returns it. *)
Variable ReceiveStream : Type.

(** [open_ems(broker, symbol)] from the point where the daemon actor is
    spawned and [portal.run] has returned [trades_stream]; [now] is the
    clock reading at which [fail_after(10)] is entered.  The result is
    what the context manager yields. *)
Definition open_ems (broker : string) (symbol : Symbol)
    (trades_stream : ReceiveStream) (now : float) (env : list action) (s : Actor)
    : Actor * option (exn + (ref * ReceiveStream)) :=
  let '(p, r) := get_orders None (process s) in
  let s1 := {| process := p; relay := relay s; relayed := relayed s |} in
  match r with
  | inl e => (s1, Some (inl e))
  | inr book =>
      let '(s2, w) := wait_ready (now + 10)%float env s1 in
      (s2, match w with
           | None => None
           | Some (inl e) => Some (inl e)
           | Some (inr _) => Some (inr (book, trades_stream))
           end)
  end.
End open_ems.

(** ** Sequences of [send] calls *)

(** The arguments of one [send] call. *)
Record send_call := {
  c_uuid : string;
  c_symbol : Symbol;
  c_price : float;
  c_size : float;
  c_action : string;
  c_exec_mode : string;
}.

Definition call_cmd (c : send_call) : pydict :=
  order_cmd (c_uuid c) (c_symbol c) (c_price c) (c_size c) (c_action c) (c_exec_mode c).

Definition send_call_run (c : send_call) : Py OrderBook pydict :=
  send (c_uuid c) (c_symbol c) (c_price c) (c_size c) (c_action c) (c_exec_mode c).

(** The calls made one after the other on the same book; a caller that
    catches an exception of one call goes on with the next. *)
Definition send_all (calls : list send_call) (self : OrderBook) : OrderBook :=
  foldl (λ b c, (send_call_run c b).1) self calls.

(** ** Example data *)

Definition aapl : Symbol := {| key := "AAPL"; brokers := {["ib"]} |}.

Definition buy_aapl : send_call :=
  {| c_uuid := "abc-1"; c_symbol := aapl; c_price := 150.25%float;
     c_size := 100%float; c_action := "buy"; c_exec_mode := "dark" |}.

(** The book of [get_orders] when it is made. *)
Definition fresh_book : OrderBook := OrderBook_init (open_memory_channel 100).

(** The book after a hundred [send] calls that no relay has drained. *)
Definition full_book : OrderBook := send_all (replicate 100 buy_aapl) fresh_book.

Definition sell_aapl : send_call :=
  {| c_uuid := "abc-2"; c_symbol := aapl; c_price := 151%float;
     c_size := 10%float; c_action := "sell"; c_exec_mode := "live" |}.

(** The book after one [send], with room left in the channel. *)
Definition one_order_book : OrderBook := send_all [buy_aapl] fresh_book.

(** An order, its relay, its cancel, a cancel of an unknown id and a second
    order. *)
Definition demo_trace : list action :=
  [ActSend "abc-1" aapl 150.25%float 100%float "buy" "dark";
   ActRelayNext;
   ActCancel "abc-1";
   ActCancel "abc-9";
   ActSend "abc-2" aapl 151%float 10%float "sell" "live"].

(** The relay started in the process before [open_ems] is entered. *)
Definition relay_started : Actor := run [ActRelayNext] Actor_init.



(** The capacity of the channel of the book of [get_orders]. *)
Definition capacity (s : Actor) : nat :=
  max_buffer_size (_to_ems (book_of (process s))).


(** The [send] calls of a sequence of actions, in order. *)
Definition sent_calls (trace : list action) : list send_call :=
  flat_map (λ a,
    match a with
    | ActSend uuid symbol price sz act mode =>
        [{| c_uuid := uuid; c_symbol := symbol; c_price := price; c_size := sz;
            c_action := act; c_exec_mode := mode |}]
    | _ => []
    end) trace.

(** * The broker API proxy (piker/brokers/core.py) *)

Module brokers_core.

Section api.
(** Argument values, results and exceptions of broker methods. *)
Context {Arg Ret Exc : Type}.

(** [inspect.Parameter.kind] *)
Inductive param_kind :=
| POSITIONAL_ONLY
| POSITIONAL_OR_KEYWORD
| VAR_POSITIONAL
| KEYWORD_ONLY
| VAR_KEYWORD.

(** [inspect.Parameter]: its [name], [kind] and [default]; [None] is
    [Parameter.empty]. *)
Record Param := {
  p_name : string;
  p_kind : param_kind;
  p_default : option Arg;
}.

(** A bound coroutine method: what [inspect.signature] reports for it and
    what a call with keyword arguments does. *)
Record Method := {
  parameters : list Param;
  call : gmap string Arg → Exc + Ret;
}.

(** The broker client: the attributes of [client.api] and those of
    [client] itself, by name.  This is the client of a broker backend as
    the proxy is meant for: it has an [api] attribute, and the attributes
    looked up by name are coroutine methods.  A client without [api], or a
    name bound to something that is no method, is outside this type. *)
Record Client := {
  Client_api : gmap string Method;
  Client_attrs : gmap string Method;
}.

(** The broker module; [get_client()] is entered as a context manager. *)
Record BrokerMod := {
  get_client : Client;
}.

Inductive log_record :=
| Warning_not_on_api
| Error_no_method (methname : string)
| Error_arguments_required (methname : string) (names : list string).

(** [getattr(obj, name, None)] *)
Definition getattr (obj : gmap string Method) (name : string) : option Method :=
  obj !! name.

(** [return await meth(kwargs)]: the exception of the call, or its result. *)
Definition awaited (meth : Method) (kwargs : gmap string Arg) : Exc + option Ret :=
  match call meth kwargs with
  | inl e => inl e
  | inr res => inr (Some res)
  end.

(** [api(brokermod, methname, kwargs)]: the records logged and the outcome;
    [inr None] is the bare [return]. *)
Definition api (brokermod : BrokerMod) (methname : string) (kwargs : gmap string Arg)
    : list log_record * (Exc + option Ret) :=
  let client := get_client brokermod in
  let meth := getattr (Client_api client) methname in
  let '(log, meth) :=
    match meth with
    | None => ([Warning_not_on_api], getattr (Client_attrs client) methname)
    | Some _ => ([], meth)
    end in
  match meth with
  | None => (log ++ [Error_no_method methname], inr None)
  | Some meth =>
      if decide (size kwargs = 0) then
        match parameters meth with
        | _ :: _ =>
            (log ++ [Error_arguments_required methname (p_name <$> parameters meth)],
             inr None)
        | [] => (log, awaited meth kwargs)
        end
      else (log, awaited meth kwargs)
  end.

(** The method that the name resolves to: on [client.api] first, then on
    the client. *)
Definition resolve (client : Client) (methname : string) : option Method :=
  match Client_api client !! methname with
  | Some meth => Some meth
  | None => Client_attrs client !! methname
  end.

(** A call has to supply a parameter that has no default and is neither the
    variadic positional nor the variadic keyword parameter. *)
Definition required (p : Param) : bool :=
  match p_kind p, p_default p with
  | (VAR_POSITIONAL | VAR_KEYWORD), _ => false
  | _, Some _ => false
  | _, None => true
  end.

Definition requires_arguments (meth : Method) : bool :=
  existsb required (parameters meth).
End api.

Section data.
(** Quotes, option chains, the values of the id table, what a contracts
    dict holds for an expiry, and the exceptions of the broker client. *)
Context {Quote Chains IdVal Expiry Exc : Type}.

(** The built-in [int] on a value of the id table; [None] when [int]
    raises (which of its exceptions is not told apart). *)
Variable int : IdVal → option Z.

(** The contracts dict passed to [option_chains]: by contract id, by expiry
    date. *)
Abbreviation Contracts := (gmap Z (gmap string (option Expiry))).

(** The methods that [stocks_quote], [option_chain] and [contracts] call on
    the client.  A quotes dict is held in its iteration order, with [None]
    for a ticker that was not found. *)
Record DataClient := {
  quote : list string → Exc + list (string * option Quote);
  tickers2ids : list string → Exc + gmap string IdVal;
  option_chains : Contracts → Exc + Chains;
  get_all_contracts : list string → Exc + Contracts;
}.

Record DataBrokerMod := {
  get_data_client : DataClient;
}.

Inductive data_error :=
| DataKeyError (k : string)     (* [ids[symbol]] on a missing symbol *)
| DataIntError                  (* what [int] raises on a value of the id table:
                                   ValueError, TypeError or OverflowError, by the value *)
| ClientError (e : Exc).        (* raised by a method of the client *)

(** [brokermod.log.warn(f"Could not find symbol {key}?")] *)
Inductive data_log :=
| Warn_symbol_not_found (key : string).

(** The result of a client method, its exception re-raised. *)
Definition awaiting {A} (r : Exc + A) : data_error + A :=
  match r with
  | inl e => inl (ClientError e)
  | inr a => inr a
  end.

(** [stocks_quote(brokermod, tickers)]: the warnings logged and the
    outcome. *)
Definition stocks_quote (brokermod : DataBrokerMod) (tickers : list string)
    : list data_log * (data_error + list (string * option Quote)) :=
  let client := get_data_client brokermod in
  match awaiting (quote client tickers) with
  | inl e => ([], inl e)
  | inr results =>
      (foldl (λ log kv,
                match kv.2 with
                | None => log ++ [Warn_symbol_not_found kv.1]
                | Some _ => log
                end) [] results,
       inr results)
  end.

(** [if date:] on [date: Optional[str]]: [None] and the empty string are
    false; otherwise the date that was given. *)
Definition date_given (date : option string) : option string :=
  match date with
  | None => None
  | Some d => if String.eqb d "" then None else Some d
  end.

(** [option_chain(brokermod, symbol, date)] *)
Definition option_chain (brokermod : DataBrokerMod) (symbol : string) (date : option string)
    : data_error + Chains :=
  let client := get_data_client brokermod in
  match date_given date with
  | Some date =>
      match awaiting (tickers2ids client [symbol]) with
      | inl e => inl e
      | inr ids =>
          match ids !! symbol with
          | None => inl (DataKeyError symbol)
          | Some v =>
              match int v with
              | None => inl DataIntError
              | Some id => awaiting (option_chains client {[id := {[date := None]}]})
              end
          end
      end
  | None =>
      match awaiting (get_all_contracts client [symbol]) with
      | inl e => inl e
      | inr contracts => awaiting (option_chains client contracts)
      end
  end.

(** [contracts(brokermod, symbol)] *)
Definition contracts (brokermod : DataBrokerMod) (symbol : string) : data_error + Contracts :=
  let client := get_data_client brokermod in
  awaiting (get_all_contracts client [symbol]).
End data.

(** A client whose [api] has a method [quotes(self, ids=...)], every
    parameter of which has a default. *)
Definition quotes : @Method string string string :=
  {| parameters := [{| p_name := "ids"; p_kind := POSITIONAL_OR_KEYWORD; p_default := Some "all" |}];
     call := λ kwargs, inr (default "all" (kwargs !! "ids")) |}.

Definition demo_broker : @BrokerMod string string string :=
  {| get_client := {| Client_api := {["quotes" := quotes]}; Client_attrs := ∅ |} |}.

(** A method without parameters whose call raises. *)
Definition ping : @Method string string string :=
  {| parameters := []; call := λ _, inl "timeout" |}.

(** A client whose own attributes repeat a name of its [api]. *)
Definition shadowing_broker : @BrokerMod string string string :=
  {| get_client := {| Client_api := {["quotes" := quotes]};
                      Client_attrs := {["quotes" := ping; "ping" := ping]} |} |}.

(** A data client that knows one symbol. *)
Definition one_symbol_client : @DataClient string string string unit string :=
  {| quote := λ tickers, inr ((λ t, (t, if String.eqb t "AAPL" then Some "150.25" else None))
                               <$> tickers);
     tickers2ids := λ _, inr {["AAPL" := "8049"]};
     option_chains := λ contracts, inr "chains";
     get_all_contracts := λ _, inr ∅ |}.

Definition one_symbol_broker : @DataBrokerMod string string string unit string :=
  {| get_data_client := one_symbol_client |}.

(** [int] on the two strings of the example. *)
Definition int_of_id (v : string) : option Z :=
  if String.eqb v "8049" then Some 8049%Z else None.

End brokers_core.

(** * Properties *)

Ltac run_py :=
  unfold mbind, mret, Py_bind, Py_ret, raise,
    sent_orders_setitem, sent_orders_getitem, to_ems_send_nowait, send_nowait, getitem;
  simpl.

Section order_book.
Implicit Types (self : OrderBook) (uuid : string) (cmd msg : pydict).

Lemma to_ems_send_nowait_room msg self :
  length (data (_to_ems self)) < max_buffer_size (_to_ems self) →
  to_ems_send_nowait msg self =
    ({| _to_ems := {| max_buffer_size := max_buffer_size (_to_ems self);
                      data := data (_to_ems self) ++ [msg] |};
        _sent_orders := _sent_orders self |}, inr ()).
Proof. intros Hroom. run_py. by rewrite decide_True. Qed.

Lemma to_ems_send_nowait_full msg self :
  (max_buffer_size (_to_ems self) ≤ length (data (_to_ems self)))%nat →
  to_ems_send_nowait msg self = (self, inl WouldBlock).
Proof.
  intros Hfull. run_py. rewrite decide_False; [|lia]. by destruct self.
Qed.

(** Whatever [send] does to the channel, the registry holds the command
    afterwards and no other entry has changed. *)
Lemma send_registry uuid symbol price size act mode self :
  _sent_orders (send uuid symbol price size act mode self).1 =
    <[uuid := order_cmd uuid symbol price size act mode]> (_sent_orders self).
Proof. unfold send. run_py. by case_decide. Qed.

Lemma send_all_snoc calls c self :
  send_all (calls ++ [c]) self = (send_call_run c (send_all calls self)).1.
Proof. unfold send_all. by rewrite foldl_app. Qed.

Lemma send_all_registry calls self :
  _sent_orders (send_all calls self) =
    foldl (λ m c, <[c_uuid c := call_cmd c]> m) (_sent_orders self) calls.
Proof.
  revert self. induction calls as [|c calls IH]; intros self; [done|].
  simpl. rewrite IH. unfold send_call_run. by rewrite send_registry.
Qed.

Lemma foldl_insert_lookup_notin (calls : list send_call) (m : gmap string pydict) uuid :
  uuid ∉ c_uuid <$> calls →
  foldl (λ m c, <[c_uuid c := call_cmd c]> m) m calls !! uuid = m !! uuid.
Proof.
  revert m. induction calls as [|c calls IH]; intros m Hnotin; [done|].
  simpl in *. apply not_elem_of_cons in Hnotin as [Hne Hnotin].
  rewrite IH by done. by rewrite lookup_insert_ne.
Qed.

Lemma foldl_insert_dom (calls : list send_call) (m : gmap string pydict) :
  dom (foldl (λ m c, <[c_uuid c := call_cmd c]> m) m calls) =
    list_to_set (c_uuid <$> calls) ∪ dom m.
Proof.
  revert m. induction calls as [|c calls IH]; intros m; simpl.
  - set_solver.
  - rewrite IH, dom_insert_L. set_solver.
Qed.
End order_book.

(** ** C1: [send] *)

Section send.
Implicit Types (self : OrderBook) (uuid : string) (calls : list send_call).

(** The seven items of the command dict. *)
Lemma order_cmd_items uuid symbol price size act mode :
  let cmd := order_cmd uuid symbol price size act mode in
  cmd !! "action" = Some (VStr act) ∧
  cmd !! "price" = Some (VFloat price) ∧
  cmd !! "size" = Some (VFloat size) ∧
  cmd !! "symbol" = Some (VStr (key symbol)) ∧
  cmd !! "brokers" = Some (VBrokers (brokers symbol)) ∧
  cmd !! "oid" = Some (VStr uuid) ∧
  cmd !! "exec_mode" = Some (VStr mode) ∧
  dom cmd = {["action"; "price"; "size"; "symbol"; "brokers"; "oid"; "exec_mode"]}.
Proof.
  unfold order_cmd, dict_display; simpl.
  repeat split; by simplify_map_eq.
Qed.

Lemma send_room uuid symbol price size act mode self :
  length (data (_to_ems self)) < max_buffer_size (_to_ems self) →
  let cmd := order_cmd uuid symbol price size act mode in
  send uuid symbol price size act mode self =
    ({| _to_ems := {| max_buffer_size := max_buffer_size (_to_ems self);
                      data := data (_to_ems self) ++ [cmd] |};
        _sent_orders := <[uuid := cmd]> (_sent_orders self) |}, inr cmd).
Proof. intros Hroom cmd. unfold send. run_py. by rewrite decide_True. Qed.

Lemma send_full uuid symbol price size act mode self :
  (max_buffer_size (_to_ems self) ≤ length (data (_to_ems self)))%nat →
  send uuid symbol price size act mode self =
    ({| _to_ems := _to_ems self;
        _sent_orders := <[uuid := order_cmd uuid symbol price size act mode]> (_sent_orders self) |},
     inl WouldBlock).
Proof.
  intros Hfull. unfold send. run_py. rewrite decide_False by lia.
  by destruct (_to_ems self).
Qed.

(** In a sequence of calls, the entry of an id is the command of the last
    call with that id. *)
Lemma send_all_last calls1 c calls2 self :
  c_uuid c ∉ c_uuid <$> calls2 →
  _sent_orders (send_all (calls1 ++ c :: calls2) self) !! c_uuid c = Some (call_cmd c).
Proof.
  intros Hlast. rewrite send_all_registry, foldl_app. simpl.
  rewrite foldl_insert_lookup_notin by done. apply lookup_insert_eq.
Qed.

Lemma send_all_distinct calls c self :
  NoDup (c_uuid <$> calls) → c ∈ calls →
  _sent_orders (send_all calls self) !! c_uuid c = Some (call_cmd c).
Proof.
  intros Hnd [calls1 [calls2 ->]]%list_elem_of_split.
  apply send_all_last.
  rewrite fmap_app, fmap_cons in Hnd.
  apply NoDup_app in Hnd as (_ & _ & Hnd).
  by apply NoDup_cons in Hnd as [? _].
Qed.

Lemma send_all_size calls self :
  NoDup (c_uuid <$> calls) → _sent_orders self = ∅ →
  size (_sent_orders (send_all calls self)) = length calls.
Proof.
  intros Hnd Hempty.
  rewrite <- size_dom, send_all_registry, foldl_insert_dom, Hempty, dom_empty_L.
  rewrite (right_id_L ∅ (∪)), size_list_to_set by done.
  by rewrite length_fmap.
Qed.
End send.

(** C1, as the claim states it, fails: on a book whose channel already holds
    a hundred commands, [send] raises [WouldBlock]; the command is neither
    put on the channel nor returned. *)
Lemma send_on_full_channel_raises :
  length (data (_to_ems full_book)) = 100 ∧
  (send "abc-2" aapl 151%float 10%float "sell" "live" full_book).2 = inl WouldBlock ∧
  _to_ems (send "abc-2" aapl 151%float 10%float "sell" "live" full_book).1 = _to_ems full_book.
Proof.
  assert (Hlen : length (data (_to_ems full_book)) = 100) by (vm_compute; reflexivity).
  assert (Hcap : max_buffer_size (_to_ems full_book) = 100) by (vm_compute; reflexivity).
  split; [exact Hlen|].
  rewrite send_full by (rewrite Hlen, Hcap; lia). by split.
Qed.

(** C1 (amended): on a book whose channel holds fewer commands than its
    capacity, [send] builds the command dict with the items action, price,
    size, symbol (the symbol's key), brokers, oid (the order id) and
    exec_mode, stores it in the registry under the order id, replacing an
    earlier entry, puts that same dict at the end of the channel and returns
    it.  With or without room in the channel the registry is updated: after
    a sequence of calls with distinct order ids the registry maps each id to
    the command of its call, its keys are the ids sent and those it had
    before, and a registry that started empty has one entry per call. *)
Theorem send_stores_enqueues_returns
    uuid symbol price sz act mode (calls : list send_call) (self : OrderBook) :
  length (data (_to_ems self)) < max_buffer_size (_to_ems self) →
  NoDup (c_uuid <$> calls) →
  let cmd := order_cmd uuid symbol price sz act mode in
  (cmd !! "action" = Some (VStr act) ∧ cmd !! "price" = Some (VFloat price) ∧
   cmd !! "size" = Some (VFloat sz) ∧ cmd !! "symbol" = Some (VStr (key symbol)) ∧
   cmd !! "brokers" = Some (VBrokers (brokers symbol)) ∧ cmd !! "oid" = Some (VStr uuid) ∧
   cmd !! "exec_mode" = Some (VStr mode)) ∧
  send uuid symbol price sz act mode self =
    ({| _to_ems := {| max_buffer_size := max_buffer_size (_to_ems self);
                      data := data (_to_ems self) ++ [cmd] |};
        _sent_orders := <[uuid := cmd]> (_sent_orders self) |}, inr cmd) ∧
  (∀ c, c ∈ calls → _sent_orders (send_all calls self) !! c_uuid c = Some (call_cmd c)) ∧
  dom (_sent_orders (send_all calls self)) =
    list_to_set (c_uuid <$> calls) ∪ dom (_sent_orders self) ∧
  (_sent_orders self = ∅ → size (_sent_orders (send_all calls self)) = length calls).
Proof.
  intros Hroom Hnd cmd. split; [|split; [|split; [|split]]].
  - pose proof (order_cmd_items uuid symbol price sz act mode) as H. simpl in H.
    unfold cmd. tauto.
  - by apply send_room.
  - intros c Hc. by apply send_all_distinct.
  - by rewrite send_all_registry, foldl_insert_dom.
  - intros Hempty. by apply send_all_size.
Qed.

Lemma send_stores_enqueues_returns_witness :
  send "abc-1" aapl 150.25%float 100%float "buy" "dark" fresh_book =
    ({| _to_ems := {| max_buffer_size := 100;
                      data := [order_cmd "abc-1" aapl 150.25%float 100%float "buy" "dark"] |};
        _sent_orders := {["abc-1" := order_cmd "abc-1" aapl 150.25%float 100%float "buy" "dark"]} |},
     inr (order_cmd "abc-1" aapl 150.25%float 100%float "buy" "dark")) ∧
  size (_sent_orders (send_all [buy_aapl; sell_aapl] fresh_book)) = 2.
Proof.
  assert (Hroom : length (data (_to_ems fresh_book)) < max_buffer_size (_to_ems fresh_book))
    by (simpl; lia).
  assert (Hnd : NoDup (c_uuid <$> [buy_aapl; sell_aapl])).
  { simpl. repeat constructor; set_solver. }
  destruct (send_stores_enqueues_returns "abc-1" aapl 150.25%float 100%float "buy" "dark"
              [buy_aapl; sell_aapl] fresh_book Hroom Hnd) as (_ & Hsend & _ & _ & Hsize).
  split; [exact Hsend | by apply Hsize].
Defined.

(** ** C3, C4: [cancel] *)

Section cancel.
Implicit Types (self : OrderBook) (uuid : string) (cmd : pydict) (symbol : value).

(** The three items of the cancel message. *)
Lemma cancel_msg_items uuid symbol :
  cancel_msg uuid symbol !! "action" = Some (VStr "cancel") ∧
  cancel_msg uuid symbol !! "oid" = Some (VStr uuid) ∧
  cancel_msg uuid symbol !! "symbol" = Some symbol ∧
  dom (cancel_msg uuid symbol) = {["action"; "oid"; "symbol"]}.
Proof. unfold cancel_msg, dict_display; simpl. repeat split; by simplify_map_eq. Qed.

(** No path through [cancel] writes the registry. *)
Lemma cancel_registry uuid self :
  _sent_orders (cancel uuid self).1 = _sent_orders self.
Proof.
  unfold cancel. run_py.
  destruct (_sent_orders self !! uuid) as [cmd|]; [|done].
  destruct (cmd !! "symbol"); simpl; [|done]. by case_decide.
Qed.

Lemma cancel_absent uuid self :
  _sent_orders self !! uuid = None →
  cancel uuid self = (self, inl (KeyError uuid)).
Proof. intros Hnone. unfold cancel. run_py. by rewrite Hnone. Qed.

Lemma cancel_room uuid self cmd symbol :
  _sent_orders self !! uuid = Some cmd →
  cmd !! "symbol" = Some symbol →
  length (data (_to_ems self)) < max_buffer_size (_to_ems self) →
  cancel uuid self =
    ({| _to_ems := {| max_buffer_size := max_buffer_size (_to_ems self);
                      data := data (_to_ems self) ++ [cancel_msg uuid symbol] |};
        _sent_orders := _sent_orders self |}, inr ()).
Proof.
  intros Hcmd Hsym Hroom. unfold cancel. run_py.
  rewrite Hcmd, Hsym. simpl. by rewrite decide_True.
Qed.

Lemma cancel_full uuid self cmd symbol :
  _sent_orders self !! uuid = Some cmd →
  cmd !! "symbol" = Some symbol →
  (max_buffer_size (_to_ems self) ≤ length (data (_to_ems self)))%nat →
  cancel uuid self = (self, inl WouldBlock).
Proof.
  intros Hcmd Hsym Hfull. unfold cancel. run_py.
  rewrite Hcmd, Hsym. simpl. rewrite decide_False by lia.
  by destruct self as [[] ?].
Qed.
End cancel.

(** C3: [cancel] of an order id that the registry does not hold raises the
    [KeyError] of the registry lookup; the book, and with it the channel, is
    as before the call: nothing is enqueued. *)
Theorem cancel_unknown_order (uuid : string) (self : OrderBook) :
  _sent_orders self !! uuid = None →
  cancel uuid self = (self, inl (KeyError uuid)).
Proof. apply cancel_absent. Qed.

Lemma cancel_unknown_order_witness :
  cancel "abc-9" full_book = (full_book, inl (KeyError "abc-9")).
Proof. apply (cancel_unknown_order "abc-9" full_book). vm_compute. reflexivity. Defined.

(** C4, as the claim states it, fails: on a book whose channel already holds
    a hundred commands, [cancel] of an order id of the registry raises
    [WouldBlock] and the channel is as before. *)
Lemma cancel_on_full_channel_raises :
  is_Some (_sent_orders full_book !! "abc-1") ∧
  cancel "abc-1" full_book = (full_book, inl WouldBlock).
Proof.
  assert (Hcmd : _sent_orders full_book !! "abc-1" = Some (call_cmd buy_aapl))
    by (vm_compute; reflexivity).
  split; [by rewrite Hcmd|].
  eapply cancel_full; [exact Hcmd | vm_compute; reflexivity | vm_compute; lia].
Qed.

(** C4 (amended): for an order id that the registry holds, the registry
    is after [cancel] what it was before, in every case: the stored command
    is neither removed nor replaced, whether [cancel] returns or raises.
    When moreover the channel holds fewer commands than its capacity (and
    the stored command has a symbol), [cancel] puts at the end of the
    channel exactly the dict with the three items action = cancel, oid =
    the order id, symbol = the symbol of the stored command, and returns. *)
Theorem cancel_enqueues_reduced_message
    (uuid : string) (self : OrderBook) (cmd : pydict) :
  _sent_orders self !! uuid = Some cmd →
  _sent_orders (cancel uuid self).1 = _sent_orders self ∧
  _sent_orders (cancel uuid self).1 !! uuid = Some cmd ∧
  ∀ symbol : value,
    cmd !! "symbol" = Some symbol →
    length (data (_to_ems self)) < max_buffer_size (_to_ems self) →
    let msg := cancel_msg uuid symbol in
    (msg !! "action" = Some (VStr "cancel") ∧ msg !! "oid" = Some (VStr uuid) ∧
     msg !! "symbol" = Some symbol ∧ dom msg = {["action"; "oid"; "symbol"]}) ∧
    cancel uuid self =
      ({| _to_ems := {| max_buffer_size := max_buffer_size (_to_ems self);
                        data := data (_to_ems self) ++ [msg] |};
          _sent_orders := _sent_orders self |}, inr ()).
Proof.
  intros Hcmd. split; [apply cancel_registry|]. split; [by rewrite cancel_registry|].
  intros symbol Hsym Hroom msg. split; [apply cancel_msg_items|].
  by eapply cancel_room.
Qed.

Lemma cancel_enqueues_reduced_message_witness :
  cancel "abc-1" one_order_book =
    ({| _to_ems := {| max_buffer_size := 100;
                      data := [call_cmd buy_aapl; cancel_msg "abc-1" (VStr "AAPL")] |};
        _sent_orders := {["abc-1" := call_cmd buy_aapl]} |}, inr ()) ∧
  _sent_orders (cancel "abc-1" one_order_book).1 !! "abc-1" = Some (call_cmd buy_aapl) ∧
  _sent_orders (cancel "abc-1" full_book).1 !! "abc-1" = Some (call_cmd buy_aapl).
Proof.
  assert (Hcmd : _sent_orders one_order_book !! "abc-1" = Some (call_cmd buy_aapl))
    by (vm_compute; reflexivity).
  assert (Hfull : _sent_orders full_book !! "abc-1" = Some (call_cmd buy_aapl))
    by (vm_compute; reflexivity).
  assert (Hsym : call_cmd buy_aapl !! "symbol" = Some (VStr "AAPL")) by (vm_compute; reflexivity).
  assert (Hroom : length (data (_to_ems one_order_book)) < max_buffer_size (_to_ems one_order_book))
    by (vm_compute; lia).
  destruct (cancel_enqueues_reduced_message "abc-1" one_order_book _ Hcmd)
    as (_ & Hkept & Hcancel).
  destruct (cancel_enqueues_reduced_message "abc-1" full_book _ Hfull) as (_ & Hkept' & _).
  split; [exact (proj2 (Hcancel _ Hsym Hroom))|]. split; [exact Hkept | exact Hkept'].
Defined.

(** ** C5: [modify] *)

(** C5, as the claim states it, fails: [modify] raises nothing; it returns
    [None]. *)
Lemma modify_does_not_raise :
  modify "abc-1" 150.25%float one_order_book = (one_order_book, inr ()) ∧
  ∀ e : exn, (modify "abc-1" 150.25%float one_order_book).2 ≠ inl e.
Proof. split; [done|]. intros e. discriminate. Qed.

(** C5 (amended): [modify] is a stub without a body: for every order id and
    price it returns [None] without raising, and the registry and the
    channel are as before the call. *)
Theorem modify_is_a_silent_stub (oid : string) (price : float) (self : OrderBook) :
  modify oid price self = (self, inr ()).
Proof. reflexivity. Qed.

(** ** C10: [send] on a full channel *)

(** C10: when [send] raises [WouldBlock], the registry of the book already
    maps the order id to the command built by this call: the assignment
    comes before the enqueue and nothing undoes it.  The channel is as
    before, and [WouldBlock] is the only exception [send] can raise. *)
Theorem send_not_atomic_on_failure
    uuid symbol price size act mode (self : OrderBook) (e : exn) :
  (send uuid symbol price size act mode self).2 = inl e →
  e = WouldBlock ∧
  _sent_orders (send uuid symbol price size act mode self).1 !! uuid =
    Some (order_cmd uuid symbol price size act mode) ∧
  _to_ems (send uuid symbol price size act mode self).1 = _to_ems self.
Proof.
  intros Hraise.
  destruct (decide (length (data (_to_ems self)) < max_buffer_size (_to_ems self))) as [Hroom|Hfull].
  - rewrite send_room in Hraise by done. discriminate.
  - rewrite send_full in * by lia. simpl in *.
    split; [congruence|]. split; [apply lookup_insert_eq | done].
Qed.

Lemma send_not_atomic_on_failure_witness :
  _sent_orders full_book !! "abc-2" = None ∧
  _sent_orders (send "abc-2" aapl 151%float 10%float "sell" "live" full_book).1 !! "abc-2" =
    Some (order_cmd "abc-2" aapl 151%float 10%float "sell" "live").
Proof.
  split; [vm_compute; reflexivity|].
  assert (Hraise : (send "abc-2" aapl 151%float 10%float "sell" "live" full_book).2 = inl WouldBlock)
    by (vm_compute; reflexivity).
  exact (proj1 (proj2 (send_not_atomic_on_failure _ _ _ _ _ _ _ _ Hraise))).
Defined.

(** ** The actor: one step at a time *)

Section actor.
Implicit Types (s : Actor) (p : Process) (a : action) (trace : list action).

Lemma book_of_Some p r : _orders p = Some r → book_of p = objects p !!! r.
Proof. intros H. unfold book_of, get_orders. by rewrite H. Qed.

Lemma book_of_None p :
  _orders p = None → book_of p = OrderBook_init (open_memory_channel 100).
Proof.
  intros H. unfold book_of, get_orders. rewrite H. simpl.
  by rewrite lookup_total_insert_eq.
Qed.

(** A method called on the book of [get_orders]. *)
Lemma with_book_run {A} (m : Py OrderBook A) p :
  ∃ p' r,
    (book ← get_orders None; on_book book m) p = (p', (m (book_of p)).2) ∧
    book_of p' = (m (book_of p)).1 ∧
    _ready_to_receive p' = _ready_to_receive p ∧
    _orders p' = Some r ∧
    (∀ r0, _orders p = Some r0 → r0 = r) ∧
    dom (objects p') = {[r]} ∪ dom (objects p).
Proof.
  destruct (_orders p) as [r|] eqn:Hp.
  - rewrite (book_of_Some p r Hp).
    unfold mbind, Py_bind, get_orders, on_book. rewrite Hp.
    destruct (m (objects p !!! r)) as [b res] eqn:Hm. simpl.
    eexists _, r. split; [done|]. simpl.
    split; [unfold book_of, get_orders; simpl; rewrite Hp; simpl;
            by rewrite lookup_total_insert_eq|].
    split; [done|]. split; [done|]. split; [congruence|].
    by rewrite dom_insert_L.
  - rewrite (book_of_None p Hp).
    unfold mbind, Py_bind, get_orders, on_book. rewrite Hp. simpl.
    rewrite lookup_total_insert_eq.
    destruct (m (OrderBook_init (open_memory_channel 100))) as [b res] eqn:Hm. simpl.
    eexists _, _. split; [done|]. simpl.
    split; [unfold book_of, get_orders; simpl; by rewrite lookup_total_insert_eq|].
    split; [done|]. split; [done|]. split; [done|].
    rewrite !dom_insert_L. set_solver.
Qed.

Lemma step_send s uuid symbol price sz act mode :
  let r := send uuid symbol price sz act mode (book_of (process s)) in
  let s' := (step (ActSend uuid symbol price sz act mode) s).1 in
  book_of (process s') = r.1 ∧
  (step (ActSend uuid symbol price sz act mode) s).2 =
    match r.2 with inr cmd => Returned (Some cmd) | inl e => Raised e end ∧
  relay s' = relay s ∧ relayed s' = relayed s ∧
  _ready_to_receive (process s') = _ready_to_receive (process s) ∧
  ∃ b, _orders (process s') = Some b ∧ (∀ b0, _orders (process s) = Some b0 → b0 = b) ∧
       dom (objects (process s')) = {[b]} ∪ dom (objects (process s)).
Proof.
  destruct (with_book_run (send uuid symbol price sz act mode) (process s))
    as (p' & b & Hrun & Hbook & Hgate & Hord & Hsame & Hdom).
  simpl. rewrite Hrun. simpl. eauto 10.
Qed.

Lemma step_cancel s uuid :
  let r := cancel uuid (book_of (process s)) in
  let s' := (step (ActCancel uuid) s).1 in
  book_of (process s') = r.1 ∧
  (step (ActCancel uuid) s).2 =
    match r.2 with inr _ => Returned None | inl e => Raised e end ∧
  relay s' = relay s ∧ relayed s' = relayed s ∧
  _ready_to_receive (process s') = _ready_to_receive (process s) ∧
  ∃ b, _orders (process s') = Some b ∧ (∀ b0, _orders (process s) = Some b0 → b0 = b) ∧
       dom (objects (process s')) = {[b]} ∪ dom (objects (process s)).
Proof.
  destruct (with_book_run (cancel uuid) (process s))
    as (p' & b & Hrun & Hbook & Hgate & Hord & Hsame & Hdom).
  simpl. rewrite Hrun. simpl. eauto 10.
Qed.
(** One pass of the relay's loop takes the head of the channel. *)
Lemma relay_loop_run p b :
  _orders p = Some b →
  ∃ p',
    relay_loop b p =
      (p', inr (RelayDraining b,
                match data (_to_ems (book_of p)) with
                | cmd :: _ => RelayYield cmd
                | [] => RelaySuspended
                end)) ∧
    book_of p' =
      {| _to_ems := {| max_buffer_size := max_buffer_size (_to_ems (book_of p));
                       data := tail (data (_to_ems (book_of p))) |};
         _sent_orders := _sent_orders (book_of p) |} ∧
    _ready_to_receive p' = _ready_to_receive p ∧
    _orders p' = Some b ∧
    dom (objects p') = {[b]} ∪ dom (objects p).
Proof.
  intros Hp. rewrite (book_of_Some p b Hp).
  unfold relay_loop, receive, _from_order_book.
  destruct (objects p !!! b) as [[cap items] reg]. simpl.
  destruct items as [|cmd rest]; simpl;
    (eexists; split; [done|]; simpl;
     split; [unfold book_of, get_orders; simpl; rewrite Hp; simpl;
             by rewrite lookup_total_insert_eq|];
     split; [done|]; split; [done|]; by rewrite dom_insert_L).
Qed.

Lemma send_order_cmds_run g p :
  (∀ b, g = RelayDraining b → _orders p = Some b) →
  ∃ p' b,
    send_order_cmds g p =
      (p', inr (RelayDraining b,
                match data (_to_ems (book_of p)) with
                | cmd :: _ => RelayYield cmd
                | [] => RelaySuspended
                end)) ∧
    book_of p' =
      {| _to_ems := {| max_buffer_size := max_buffer_size (_to_ems (book_of p));
                       data := tail (data (_to_ems (book_of p))) |};
         _sent_orders := _sent_orders (book_of p) |} ∧
    (is_set (_ready_to_receive p') = true ∨
     g ≠ RelayCreated ∧ _ready_to_receive p' = _ready_to_receive p) ∧
    _orders p' = Some b ∧
    (∀ b0, _orders p = Some b0 → b0 = b) ∧
    dom (objects p') = {[b]} ∪ dom (objects p).
Proof.
  intros Hg. destruct g as [|b]; simpl.
  - unfold mbind, Py_bind, ready_to_receive_set.
    destruct (get_orders None p) as [p1 r] eqn:Hget.
    assert (∃ b, r = inr b ∧ _orders p1 = Some b ∧ book_of p1 = book_of p ∧
                 (∀ b0, _orders p = Some b0 → b0 = b) ∧
                 {[b]} ∪ dom (objects p1) = {[b]} ∪ dom (objects p) ∧
                 _ready_to_receive p1 = _ready_to_receive p)
      as (b & -> & Hp1 & Hbook & Hsame & Hdom & Hgate).
    { unfold get_orders in Hget. destruct (_orders p) as [b0|] eqn:Hp.
      - injection Hget as <- <-. exists b0. repeat split; try done. congruence.
      - injection Hget as <- <-. eexists. repeat split; try done.
        + rewrite (book_of_None p Hp). unfold book_of, get_orders. simpl.
          by rewrite lookup_total_insert_eq.
        + simpl. rewrite dom_insert_L. set_solver. }
    set (p2 := {| objects := objects p1;
                  _ready_to_receive := Event_set (_ready_to_receive p1);
                  _orders := _orders p1 |}).
    destruct (relay_loop_run p2 b Hp1) as (p' & Hloop & Hbook' & Hgate' & Hord' & Hdom').
    assert (Hb2 : book_of p2 = book_of p).
    { rewrite <- Hbook. by rewrite (book_of_Some p2 b Hp1), (book_of_Some p1 b Hp1). }
    rewrite Hb2 in Hloop, Hbook'.
    exists p', b. split; [exact Hloop|]. split; [done|].
    split; [left; by rewrite Hgate'|]. split; [done|]. split; [done|].
    rewrite Hdom'. simpl. exact Hdom.
  - specialize (Hg b eq_refl).
    destruct (relay_loop_run p b Hg) as (p' & Hloop & Hbook' & Hgate' & Hord' & Hdom').
    exists p', b. split; [done|]. split; [done|].
    split; [by right|]. split; [done|]. split; [congruence|done].
Qed.
Lemma step_relay s :
  actor_wf s →
  let s' := (step ActRelayNext s).1 in
  (pending s' = tail (pending s) ∧ registry s' = registry s ∧
   max_buffer_size (_to_ems (book_of (process s'))) =
     max_buffer_size (_to_ems (book_of (process s)))) ∧
  relayed s' = relayed s ++ match pending s with cmd :: _ => [cmd] | [] => [] end ∧
  (step ActRelayNext s).2 =
    Next match pending s with cmd :: _ => RelayYield cmd | [] => RelaySuspended end ∧
  is_set (_ready_to_receive (process s')) = true ∧
  ∃ b, relay s' = RelayDraining b ∧ _orders (process s') = Some b ∧
       (∀ b0, _orders (process s) = Some b0 → b0 = b) ∧
       dom (objects (process s')) = {[b]} ∪ dom (objects (process s)).
Proof.
  intros Hwf.
  destruct (send_order_cmds_run (relay s) (process s))
    as (p' & b & Hrun & Hbook & Hgate & Hord & Hsame & Hdom).
  { intros b Hb. unfold actor_wf in Hwf. rewrite Hb in Hwf. tauto. }
  assert (Hset : is_set (_ready_to_receive p') = true).
  { destruct Hgate as [|[Hne Hgate]]; [done|]. rewrite Hgate.
    unfold actor_wf in Hwf. destruct (relay s); [done | tauto]. }
  unfold pending, registry. simpl. rewrite Hrun.
  destruct (data (_to_ems (book_of (process s)))) as [|cmd rest]; simpl in *;
    rewrite Hbook; simpl;
    (split; [done|]; split; [by rewrite ?app_nil_r|]; split; [done|]; split; [done|];
     exists b; by repeat split).
Qed.

Lemma step_wf a s : actor_wf s → actor_wf (step a s).1.
Proof.
  intros Hwf. destruct a as [uuid symbol price sz act mode|uuid| |now].
  - destruct (step_send s uuid symbol price sz act mode)
      as (_ & _ & Hrelay & _ & Hgate & b & Hord & Hsame & _).
    unfold actor_wf in *. rewrite Hrelay, Hgate, Hord.
    destruct (relay s) as [|b0]; [done|]. destruct Hwf as [Hb0 ?].
    by rewrite (Hsame b0 Hb0).
  - destruct (step_cancel s uuid) as (_ & _ & Hrelay & _ & Hgate & b & Hord & Hsame & _).
    unfold actor_wf in *. rewrite Hrelay, Hgate, Hord.
    destruct (relay s) as [|b0]; [done|]. destruct Hwf as [Hb0 ?].
    by rewrite (Hsame b0 Hb0).
  - destruct (step_relay s Hwf) as (_ & _ & _ & Hset & b & Hrelay & Hord & _).
    unfold actor_wf. by rewrite Hrelay.
  - done.
Qed.

Lemma run_wf trace s : actor_wf s → actor_wf (run trace s).
Proof.
  revert s. induction trace as [|a trace IH]; intros s Hwf; [done|].
  simpl. by apply IH, step_wf.
Qed.

Lemma run_app trace1 trace2 s : run (trace1 ++ trace2) s = run trace2 (run trace1 s).
Proof. unfold run. by rewrite foldl_app. Qed.

Lemma cancel_channel uuid self :
  (cancel uuid self).2 = inr () ∧
    (∃ symbol, _sent_orders self !! uuid ≫= (.!! "symbol") = Some symbol ∧
       _to_ems (cancel uuid self).1 =
         {| max_buffer_size := max_buffer_size (_to_ems self);
            data := data (_to_ems self) ++ [cancel_msg uuid symbol] |}) ∨
  (∃ e, (cancel uuid self).2 = inl e) ∧ (cancel uuid self).1 = self.
Proof.
  destruct (_sent_orders self !! uuid) as [cmd|] eqn:Hcmd.
  - destruct (cmd !! "symbol") as [symbol|] eqn:Hsym.
    + destruct (decide (length (data (_to_ems self)) < max_buffer_size (_to_ems self))).
      * left. rewrite (cancel_room uuid self cmd symbol) by done. eauto.
      * right. rewrite (cancel_full uuid self cmd symbol) by (done || lia). eauto.
    + right. unfold cancel. run_py. rewrite Hcmd, Hsym. simpl. eauto.
  - right. rewrite cancel_absent by done. eauto.
Qed.

(** One step keeps the order of what has been relayed and what waits, and
    adds at the end what the step enqueued. *)
Lemma step_fifo a s :
  actor_wf s →
  relayed (step a s).1 ++ pending (step a s).1 = relayed s ++ pending s ++ enqueued_by a s.
Proof.
  intros Hwf. destruct a as [uuid symbol price sz act mode|uuid| |now].
  - destruct (step_send s uuid symbol price sz act mode)
      as (Hbook & Hout & _ & Hrel & _).
    unfold enqueued_by, pending. rewrite Hout, Hrel, Hbook.
    destruct (decide (length (data (_to_ems (book_of (process s))))
                      < max_buffer_size (_to_ems (book_of (process s))))).
    + by rewrite send_room.
    + rewrite send_full by lia. simpl. by rewrite app_nil_r.
  - destruct (step_cancel s uuid) as (Hbook & Hout & _ & Hrel & _).
    unfold enqueued_by, pending, registry. rewrite Hout, Hrel, Hbook.
    destruct (cancel_channel uuid (book_of (process s)))
      as [(-> & symbol & -> & ->)|[[e ->] ->]]; [done|].
    by rewrite app_nil_r.
  - destruct (step_relay s Hwf) as ((Hpend & _) & Hrel & Hout & _).
    assert (enqueued_by ActRelayNext s = []) as -> by done.
    rewrite Hrel, Hpend, app_nil_r. destruct (pending s); simpl; [by rewrite app_nil_r|].
    by rewrite <- app_assoc.
  - simpl. by rewrite app_nil_r.
Qed.

Lemma run_fifo trace s :
  actor_wf s →
  relayed (run trace s) ++ pending (run trace s) = relayed s ++ pending s ++ enqueued trace s.
Proof.
  revert s. induction trace as [|a trace IH]; intros s Hwf; simpl.
  - by rewrite app_nil_r.
  - rewrite IH by by apply step_wf. rewrite !app_assoc. f_equal.
    rewrite <- !app_assoc. by apply step_fifo.
Qed.

(** Driving the relay as often as commands wait yields them all, in the
    order of the channel. *)
Lemma run_drain s :
  actor_wf s →
  let s' := run (replicate (length (pending s)) ActRelayNext) s in
  relayed s' = relayed s ++ pending s ∧ pending s' = [].
Proof.
  remember (length (pending s)) as n eqn:Hn.
  revert s Hn. induction n as [|n IH]; intros s Hn Hwf; cbv zeta.
  - change (run (replicate 0 ActRelayNext) s) with s.
    destruct (pending s); [|done]. by rewrite app_nil_r.
  - change (run (replicate (S n) ActRelayNext) s)
      with (run (replicate n ActRelayNext) (step ActRelayNext s).1).
    destruct (step_relay s Hwf) as ((Hrest & _) & Hrel & _).
    destruct (pending s) as [|cmd rest] eqn:Hpend; [done|].
    change (tail (cmd :: rest)) with rest in Hrest.
    destruct (IH (step ActRelayNext s).1) as [Hrel' Hpend'].
    { rewrite Hrest. simpl in Hn. by injection Hn. }
    { by apply step_wf. }
    split; [|done]. rewrite Hrel', Hrel, Hrest. by rewrite <- app_assoc.
Qed.
End actor.

(** ** C2: the relay is first in, first out *)

(** C2: along every sequence of actions of the actor, what the relay has
    yielded followed by what waits in the channel is what was there at the
    start followed by the commands enqueued since, in the order of their
    enqueue calls; each request to the relay yields the one command at the
    head of the channel; and once the relay has been driven as often as
    commands wait, it has yielded every enqueued command, in that order,
    none twice and none left out. *)
Theorem relay_fifo (trace : list action) (s : Actor) :
  actor_wf s →
  let s' := run trace s in
  relayed s' ++ pending s' = relayed s ++ pending s ++ enqueued trace s ∧
  (∀ cmd rest, pending s' = cmd :: rest →
     (step ActRelayNext s').2 = Next (RelayYield cmd) ∧
     relayed (step ActRelayNext s').1 = relayed s' ++ [cmd] ∧
     pending (step ActRelayNext s').1 = rest) ∧
  let s'' := run (replicate (length (pending s')) ActRelayNext) s' in
  relayed s'' = relayed s ++ pending s ++ enqueued trace s ∧ pending s'' = [].
Proof.
  intros Hwf s'. assert (Hwf' : actor_wf s') by by apply run_wf.
  pose proof (run_fifo trace s Hwf) as Hfifo. fold s' in Hfifo.
  split; [done|]. split.
  - intros cmd rest Hpend.
    destruct (step_relay s' Hwf') as ((Hrest & _) & Hrel & Hout & _).
    rewrite Hpend in *. by repeat split.
  - destruct (run_drain s' Hwf') as [Hrel Hpend]. simpl. split; [|done].
    by rewrite Hrel.
Qed.

Lemma relay_fifo_witness :
  relayed (run (replicate 2 ActRelayNext) (run demo_trace Actor_init)) =
    [call_cmd buy_aapl; cancel_msg "abc-1" (VStr "AAPL"); call_cmd sell_aapl].
Proof.
  assert (Hwf : actor_wf Actor_init) by exact I.
  destruct (relay_fifo demo_trace Actor_init Hwf) as (_ & _ & Hdrain & _).
  assert (Hlen : length (pending (run demo_trace Actor_init)) = 2) by (vm_compute; reflexivity).
  rewrite Hlen in Hdrain. rewrite Hdrain. vm_compute. reflexivity.
Defined.

(** ** C6: the capacity of the channel *)

Section capacity.
Implicit Types (s : Actor) (a : action) (trace : list action).

Lemma send_nowait_full (msg : pydict) (st : MemoryChannelState) :
  max_buffer_size st ≤ length (data st) → send_nowait msg st = (st, inl WouldBlock).
Proof. intros Hfull. unfold send_nowait. by rewrite decide_False by lia. Qed.

(** No step changes the capacity, and none fills the channel beyond it. *)
Lemma step_capacity a s :
  actor_wf s →
  capacity (step a s).1 = capacity s ∧
  (length (pending s) ≤ capacity s → length (pending (step a s).1) ≤ capacity s).
Proof.
  intros Hwf. unfold capacity, pending.
  destruct a as [uuid symbol price sz act mode|uuid| |now].
  - destruct (step_send s uuid symbol price sz act mode) as (-> & _).
    destruct (decide (length (data (_to_ems (book_of (process s))))
                      < max_buffer_size (_to_ems (book_of (process s))))).
    + rewrite send_room by done. simpl. rewrite length_app. simpl. split; [done|lia].
    + rewrite send_full by lia. done.
  - destruct (step_cancel s uuid) as (-> & _).
    destruct (cancel_channel uuid (book_of (process s)))
      as [(Hok & symbol & Hsym & ->)|[_ ->]]; [|done].
    simpl. rewrite length_app. simpl. split; [done|]. intros _.
    unfold cancel in Hok. revert Hok. run_py.
    destruct (_sent_orders (book_of (process s)) !! uuid) as [cmd|]; [|done].
    simpl in Hsym. rewrite Hsym. simpl. case_decide; [lia|done].
  - destruct (step_relay s Hwf) as ((Hpend & _ & Hcap) & _).
    unfold pending in Hpend. rewrite Hpend, Hcap. split; [done|].
    destruct (data (_to_ems (book_of (process s)))); simpl; lia.
  - done.
Qed.

Lemma run_capacity trace s :
  actor_wf s →
  capacity (run trace s) = capacity s ∧
  (length (pending s) ≤ capacity s → length (pending (run trace s)) ≤ capacity s).
Proof.
  revert s. induction trace as [|a trace IH]; intros s Hwf; [done|].
  change (run (a :: trace) s) with (run trace (step a s).1).
  destruct (step_capacity a s Hwf) as [Hcap Hlen].
  destruct (IH (step a s).1 (step_wf a s Hwf)) as [Hcap' Hlen'].
  rewrite Hcap in *. split; [done|]. auto.
Qed.

(** The channel of [get_orders] has room for a hundred commands, from the
    first call on, and never holds more. *)
Lemma channel_capacity trace :
  capacity (run trace Actor_init) = 100 ∧ length (pending (run trace Actor_init)) ≤ 100.
Proof.
  destruct (run_capacity trace Actor_init I) as [Hcap Hlen].
  assert (Hinit : capacity Actor_init = 100) by done.
  rewrite Hinit in *. split; [done|]. apply Hlen.
  assert (pending Actor_init = []) as -> by done. simpl. lia.
Qed.
End capacity.

(** C6: the channel that [get_orders] makes has capacity 100, and in every
    state of the actor in which it holds 100 commands a further
    [send_nowait] raises [WouldBlock] at once and leaves the channel as it
    was; so a [send] call there raises [WouldBlock] and the waiting commands
    are those of before. *)
Theorem channel_full_rejects
    (trace : list action) (msg : pydict) uuid symbol price sz act mode :
  let s := run trace Actor_init in
  length (pending s) = 100 →
  max_buffer_size (_to_ems (book_of (process s))) = 100 ∧
  send_nowait msg (_to_ems (book_of (process s))) =
    (_to_ems (book_of (process s)), inl WouldBlock) ∧
  (step (ActSend uuid symbol price sz act mode) s).2 = Raised WouldBlock ∧
  pending (step (ActSend uuid symbol price sz act mode) s).1 = pending s.
Proof.
  intros s Hlen. destruct (channel_capacity trace) as [Hcap _].
  fold s in Hcap. unfold capacity in Hcap. unfold pending in Hlen.
  split; [done|]. split; [apply send_nowait_full; lia|].
  destruct (step_send s uuid symbol price sz act mode) as (Hbook & -> & _).
  unfold pending. rewrite Hbook, send_full by lia. done.
Qed.

Lemma channel_full_rejects_witness :
  let s := run (replicate 100 (ActSend "abc-1" aapl 150.25%float 100%float "buy" "dark"))
             Actor_init in
  length (pending s) = 100 ∧
  (step (ActSend "abc-2" aapl 151%float 10%float "sell" "live") s).2 = Raised WouldBlock ∧
  pending (step (ActSend "abc-2" aapl 151%float 10%float "sell" "live") s).1 = pending s.
Proof.
  intros s.
  assert (Hlen : length (pending s) = 100) by (vm_compute; reflexivity).
  split; [exact Hlen|].
  exact (proj2 (proj2 (channel_full_rejects _ (call_cmd sell_aapl)
                         "abc-2" aapl 151%float 10%float "sell" "live" Hlen))).
Defined.

(** ** C9: one book per process *)

Section singleton.
Implicit Types (s : Actor) (p : Process) (a : action) (trace : list action) (r : ref).


Lemma get_orders_again uid p r :
  _orders p = Some r → get_orders uid p = (p, inr r).
Proof. intros Hp. unfold get_orders. by rewrite Hp. Qed.

Lemma relay_loop_globals r p :
  _orders (relay_loop r p).1 = _orders p ∧
  _ready_to_receive (relay_loop r p).1 = _ready_to_receive p.
Proof.
  unfold relay_loop. destruct (receive _) as [chan [cmd|]]; done.
Qed.

(** Once set, the global [_orders] is never assigned again, and the gate,
    once up, stays up. *)
Lemma step_globals a s :
  (∀ r, _orders (process s) = Some r → _orders (process (step a s).1) = Some r) ∧
  (is_set (_ready_to_receive (process s)) = true →
   is_set (_ready_to_receive (process (step a s).1)) = true).
Proof.
  destruct a as [uuid symbol price sz act mode|uuid| |now].
  - destruct (step_send s uuid symbol price sz act mode)
      as (_ & _ & _ & _ & Hgate & b & Hord & Hsame & _).
    rewrite Hgate. split; [|done]. intros r Hr. by rewrite (Hsame r Hr).
  - destruct (step_cancel s uuid) as (_ & _ & _ & _ & Hgate & b & Hord & Hsame & _).
    rewrite Hgate. split; [|done]. intros r Hr. by rewrite (Hsame r Hr).
  - unfold step, send_order_cmds. destruct (relay s) as [|b].
    + unfold mbind, Py_bind, ready_to_receive_set.
      destruct (get_orders None (process s)) as [p1 [e|b]] eqn:Hget.
      { unfold get_orders in Hget. by destruct (_orders (process s)). }
      pose proof (relay_loop_globals b
        {| objects := objects p1;
           _ready_to_receive := Event_set (_ready_to_receive p1);
           _orders := _orders p1 |}) as [Hord Hgate].
      destruct (relay_loop b _) as [p2 [e|[g [cmd|]]]]; simpl in *;
        rewrite Hord, Hgate; (split; [|done]); intros r Hr;
        by rewrite (get_orders_again None _ r Hr) in Hget; injection Hget as <- _.
    + pose proof (relay_loop_globals b (process s)) as [Hord Hgate].
      destruct (relay_loop b (process s)) as [p2 [e|[g [cmd|]]]]; simpl in *;
        by rewrite Hord, Hgate.
  - done.
Qed.

Lemma run_globals trace s :
  (∀ r, _orders (process s) = Some r → _orders (process (run trace s)) = Some r) ∧
  (is_set (_ready_to_receive (process s)) = true →
   is_set (_ready_to_receive (process (run trace s))) = true).
Proof.
  revert s. induction trace as [|a trace IH]; intros s; [done|].
  change (run (a :: trace) s) with (run trace (step a s).1).
  destruct (step_globals a s) as [Hord Hgate].
  destruct (IH (step a s).1) as [Hord' Hgate']. split; auto.
Qed.



End singleton.





(** ** C7: the readiness handshake *)

Section handshake.
Implicit Types (s : Actor) (a : action) (env pre post : list action) (deadline : float).

Lemma run_clock now env s : run (ActClock now :: env) s = run env s.
Proof. done. Qed.

Lemma wait_ready_down deadline env s :
  is_set (_ready_to_receive (process s)) = false →
  wait_ready deadline env s = wait_parked deadline env s.
Proof. intros Hdown. unfold wait_ready. by rewrite Hdown. Qed.

Lemma wait_ready_up deadline env s :
  is_set (_ready_to_receive (process s)) = true →
  wait_ready deadline env s = checkpoint deadline env s.
Proof. intros Hup. unfold wait_ready. by rewrite Hup. Qed.

Lemma wait_parked_cons deadline a env s :
  no_pass a = true →
  wait_parked deadline (a :: env) s =
    if is_set (_ready_to_receive (process (step a s).1))
    then ((step a s).1, Some (inr ()))
    else wait_parked deadline env (step a s).1.
Proof. by destruct a. Qed.

Lemma wait_parked_clock deadline now env s :
  wait_parked deadline (ActClock now :: env) s =
    if PrimFloat.leb deadline now then (s, Some (inl TooSlowError))
    else wait_parked deadline env s.
Proof. done. Qed.

(** The sleeping task is woken: the gate goes up before any clock reading
    reaches the deadline. *)
Lemma wait_parked_in_time deadline pre post s :
  is_set (_ready_to_receive (process s)) = false →
  forallb (before_deadline deadline) pre = true →
  is_set (_ready_to_receive (process (run pre s))) = true →
  (wait_parked deadline (pre ++ post) s).2 = Some (inr ()).
Proof.
  revert s. induction pre as [|a pre IH]; intros s Hdown Hpre Hset.
  - simpl in Hset. congruence.
  - simpl in Hpre. apply andb_prop in Hpre as [Ha Hpre].
    change (run (a :: pre) s) with (run pre (step a s).1) in Hset.
    change ((a :: pre) ++ post) with (a :: (pre ++ post)).
    destruct (no_pass a) eqn:Hpass.
    + rewrite wait_parked_cons by done.
      destruct (is_set (_ready_to_receive (process (step a s).1))) eqn:Hs; [done|].
      by apply IH.
    + destruct a as [uuid symbol price sz act mode|uuid| |now]; try discriminate.
      rewrite wait_parked_clock. simpl in Ha. apply negb_true_iff in Ha. rewrite Ha.
      by apply IH.
Qed.

(** The clock reaches the deadline while the gate is still down. *)
Lemma wait_parked_too_slow deadline pre now post s :
  forallb (before_deadline deadline) pre = true →
  is_set (_ready_to_receive (process (run pre s))) = false →
  PrimFloat.leb deadline now = true →
  wait_parked deadline (pre ++ ActClock now :: post) s = (run pre s, Some (inl TooSlowError)).
Proof.
  revert s. induction pre as [|a pre IH]; intros s Hpre Hdown Hlate.
  - simpl in *. by rewrite Hlate.
  - simpl in Hpre. apply andb_prop in Hpre as [Ha Hpre].
    change (run (a :: pre) s) with (run pre (step a s).1) in *.
    change ((a :: pre) ++ ActClock now :: post) with (a :: (pre ++ ActClock now :: post)).
    destruct (no_pass a) eqn:Hpass.
    + rewrite wait_parked_cons by done.
      assert (Hs : is_set (_ready_to_receive (process (step a s).1)) = false).
      { destruct (is_set (_ready_to_receive (process (step a s).1))) eqn:Hs; [|done].
        by rewrite (proj2 (run_globals pre (step a s).1) Hs) in Hdown. }
      rewrite Hs. by apply IH.
    + destruct a as [uuid symbol price sz act mode|uuid| |now']; try discriminate.
      rewrite wait_parked_clock. simpl in Ha. apply negb_true_iff in Ha. rewrite Ha.
      by apply IH.
Qed.

(** The checkpoint is decided by the first wake-up of the scheduler. *)
Lemma checkpoint_next_pass deadline pre now post s :
  forallb no_pass pre = true →
  checkpoint deadline (pre ++ ActClock now :: post) s =
    (run pre s,
     if PrimFloat.leb deadline now then Some (inl TooSlowError) else Some (inr ())).
Proof.
  revert s. induction pre as [|a pre IH]; intros s Hpre.
  - simpl. by destruct (PrimFloat.leb deadline now).
  - simpl in Hpre. apply andb_prop in Hpre as [Ha Hpre].
    change (run (a :: pre) s) with (run pre (step a s).1).
    rewrite <- (IH (step a s).1 Hpre). by destruct a.
Qed.

(** Nothing but the first pass of the relay sets the gate. *)
Lemma run_gate_down pre s :
  ActRelayNext ∉ pre →
  is_set (_ready_to_receive (process s)) = false →
  is_set (_ready_to_receive (process (run pre s))) = false.
Proof.
  revert s. induction pre as [|a pre IH]; intros s Hno Hdown; [done|].
  apply not_elem_of_cons in Hno as [Hne Hno].
  change (run (a :: pre) s) with (run pre (step a s).1).
  apply IH; [done|].
  destruct a as [uuid symbol price sz act mode|uuid| |now]; [| |done|done].
  - destruct (step_send s uuid symbol price sz act mode) as (_ & _ & _ & _ & -> & _).
    done.
  - destruct (step_cancel s uuid) as (_ & _ & _ & _ & -> & _). done.
Qed.

Lemma run_gate_up pre post s :
  actor_wf s →
  is_set (_ready_to_receive (process (run (pre ++ ActRelayNext :: post) s))) = true.
Proof.
  intros Hwf. rewrite run_app.
  change (run (ActRelayNext :: post) (run pre s))
    with (run post (step ActRelayNext (run pre s)).1).
  apply run_globals.
  by destruct (step_relay (run pre s) (run_wf pre s Hwf)) as (_ & _ & _ & Hset & _).
Qed.
End handshake.

Lemma get_orders_returns uid (p : Process) : ∃ book, (get_orders uid p).2 = inr book.
Proof. unfold get_orders. destruct (_orders p); eauto. Qed.

(** [open_ems] is the wait on the gate of the book of [get_orders]. *)
Lemma open_ems_run {ReceiveStream : Type}
    (broker : string) (symbol : Symbol) (trades_stream : ReceiveStream)
    (now : float) (env : list action) (s : Actor) :
  let s1 := {| process := (get_orders None (process s)).1;
               relay := relay s; relayed := relayed s |} in
  ∃ book,
    (get_orders None (process s)).2 = inr book ∧
    (open_ems ReceiveStream broker symbol trades_stream now env s).2 =
      match (wait_ready (now + 10)%float env s1).2 with
      | None => None
      | Some (inl e) => Some (inl e)
      | Some (inr _) => Some (inr (book, trades_stream))
      end.
Proof.
  intros s1. destruct (get_orders_returns None (process s)) as [book Hbook].
  exists book. split; [done|]. unfold open_ems. subst s1.
  destruct (get_orders None (process s)) as [p r]. simpl in Hbook. subst r. simpl.
  by destruct (wait_ready _ _ _) as [s2 w].
Qed.

(** C7, as the claim states it, fails: with the gate up since before
    [open_ems] was entered, the wait is a checkpoint inside
    [fail_after(10)]; when the scheduler next wakes with the clock at the
    deadline, [open_ems] raises [TooSlowError] and yields no pair. *)
Lemma open_ems_gate_up_too_slow :
  is_set (_ready_to_receive (process relay_started)) = true ∧
  (open_ems nat "ib" aapl 7 0%float [ActClock 10%float] relay_started).2 =
    Some (inl TooSlowError).
Proof. split; vm_compute; reflexivity. Qed.

(** C7 (amended): [open_ems] takes the book of [get_orders] and waits for
    its readiness gate under a deadline of 10 on the clock, counted from
    the reading at which the wait begins.  With the gate down on entry:
    if it goes up while every clock reading is still before the deadline,
    [open_ems] yields the pair of that book and the daemon's event stream;
    if it is still down when the scheduler wakes with the clock at the
    deadline or later, [open_ems] raises [TooSlowError] and yields nothing.
    With the gate up on entry the next wake-up of the scheduler decides:
    before the deadline [open_ems] yields the pair, at the deadline or
    later it raises [TooSlowError]. *)
Theorem open_ems_handshake {ReceiveStream : Type}
    (broker : string) (symbol : Symbol) (trades_stream : ReceiveStream)
    (now early late : float) (pre post : list action) (s : Actor) :
  let deadline := (now + 10)%float in
  let s1 := {| process := (get_orders None (process s)).1;
               relay := relay s; relayed := relayed s |} in
  forallb (before_deadline deadline) pre = true →
  PrimFloat.leb deadline early = false →
  PrimFloat.leb deadline late = true →
  ∃ book,
    (get_orders None (process s)).2 = inr book ∧
    (is_set (_ready_to_receive (process s1)) = false →
     is_set (_ready_to_receive (process (run pre s1))) = true →
     (open_ems ReceiveStream broker symbol trades_stream now (pre ++ post) s).2 =
       Some (inr (book, trades_stream))) ∧
    (is_set (_ready_to_receive (process (run pre s1))) = false →
     (open_ems ReceiveStream broker symbol trades_stream now (pre ++ ActClock late :: post) s).2 =
       Some (inl TooSlowError)) ∧
    (is_set (_ready_to_receive (process s1)) = true →
     forallb no_pass pre = true →
     (open_ems ReceiveStream broker symbol trades_stream now (pre ++ ActClock early :: post) s).2 =
       Some (inr (book, trades_stream)) ∧
     (open_ems ReceiveStream broker symbol trades_stream now (pre ++ ActClock late :: post) s).2 =
       Some (inl TooSlowError)).
Proof.
  intros deadline s1 Hpre Hearly Hlate.
  destruct (open_ems_run broker symbol trades_stream now (pre ++ post) s)
    as (book & Hbook & Hrun).
  destruct (open_ems_run broker symbol trades_stream now (pre ++ ActClock late :: post) s)
    as (book' & Hbook' & Hrun').
  destruct (open_ems_run broker symbol trades_stream now (pre ++ ActClock early :: post) s)
    as (book'' & Hbook'' & Hrun'').
  assert (book' = book) as -> by congruence.
  assert (book'' = book) as -> by congruence.
  fold s1 deadline in Hrun, Hrun', Hrun''.
  exists book. split; [done|]. split; [|split].
  - intros Hdown Hgate. rewrite Hrun, wait_ready_down by done.
    by rewrite (wait_parked_in_time deadline pre post s1 Hdown Hpre Hgate).
  - intros Hgate.
    assert (Hdown : is_set (_ready_to_receive (process s1)) = false).
    { destruct (is_set (_ready_to_receive (process s1))) eqn:Hs; [|done].
      by rewrite (proj2 (run_globals pre s1) Hs) in Hgate. }
    rewrite Hrun', wait_ready_down by done.
    by rewrite (wait_parked_too_slow deadline pre late post s1 Hpre Hgate Hlate).
  - intros Hup Hquiet. split.
    + rewrite Hrun'', wait_ready_up, checkpoint_next_pass by done. simpl.
      by rewrite Hearly.
    + rewrite Hrun', wait_ready_up, checkpoint_next_pass by done. simpl.
      by rewrite Hlate.
Qed.

Lemma open_ems_handshake_witness :
  (open_ems nat "ib" aapl 7 0%float
     [ActClock 9.5%float; ActRelayNext; ActClock 11%float] Actor_init).2 = Some (inr (0, 7)) ∧
  (open_ems nat "ib" aapl 7 0%float
     [ActSend "abc-1" aapl 150.25%float 100%float "buy" "dark"; ActClock 9.5%float;
      ActClock 10%float; ActRelayNext] Actor_init).2 = Some (inl TooSlowError) ∧
  (open_ems nat "ib" aapl 7 0%float
     [ActCancel "abc-9"; ActClock 9.5%float] relay_started).2 = Some (inr (0, 7)).
Proof.
  split; [|split].
  - destruct (open_ems_handshake "ib" aapl 7 0%float 9.5%float 10%float
                [ActClock 9.5%float; ActRelayNext] [ActClock 11%float] Actor_init)
      as (book & Hbook & Hready & _);
      [vm_compute; reflexivity | vm_compute; reflexivity | vm_compute; reflexivity |].
    assert (book = 0) as -> by (vm_compute in Hbook; congruence).
    apply Hready; vm_compute; reflexivity.
  - destruct (open_ems_handshake "ib" aapl 7 0%float 9.5%float 10%float
                [ActSend "abc-1" aapl 150.25%float 100%float "buy" "dark"; ActClock 9.5%float]
                [ActRelayNext] Actor_init)
      as (book & _ & _ & Hslow & _);
      [vm_compute; reflexivity | vm_compute; reflexivity | vm_compute; reflexivity |].
    apply Hslow. vm_compute. reflexivity.
  - destruct (open_ems_handshake "ib" aapl 7 0%float 9.5%float 10%float
                [ActCancel "abc-9"] [] relay_started)
      as (book & Hbook & _ & _ & Hup);
      [vm_compute; reflexivity | vm_compute; reflexivity | vm_compute; reflexivity |].
    assert (book = 0) as -> by (vm_compute in Hbook; congruence).
    apply Hup; vm_compute; reflexivity.
Defined.

(** The same in terms of the relay, which is what sets the gate: from a
    state with the gate down, [open_ems] yields when the daemon first asks
    the relay for a command before the deadline, and raises [TooSlowError]
    when it has not done so by then. *)
Lemma open_ems_relay {ReceiveStream : Type}
    (broker : string) (symbol : Symbol) (trades_stream : ReceiveStream)
    (now late : float) (pre mid post : list action) (s : Actor) :
  actor_wf s →
  is_set (_ready_to_receive (process s)) = false →
  PrimFloat.leb (now + 10)%float late = true →
  (forallb (before_deadline (now + 10)%float) (pre ++ ActRelayNext :: mid) = true →
   ∃ book,
     (get_orders None (process s)).2 = inr book ∧
     (open_ems ReceiveStream broker symbol trades_stream now
        (pre ++ ActRelayNext :: mid ++ post) s).2 = Some (inr (book, trades_stream))) ∧
  (forallb (before_deadline (now + 10)%float) pre = true → ActRelayNext ∉ pre →
   (open_ems ReceiveStream broker symbol trades_stream now
      (pre ++ ActClock late :: post) s).2 = Some (inl TooSlowError)).
Proof.
  intros Hwf Hdown Hlate.
  set (s1 := {| process := (get_orders None (process s)).1;
                relay := relay s; relayed := relayed s |}).
  assert (Hwf1 : actor_wf s1).
  { unfold actor_wf in *. subst s1. simpl. unfold get_orders.
    destruct (relay s) as [|b]; [done|]. destruct Hwf as [Hb Hset].
    by rewrite Hb. }
  assert (Hdown1 : is_set (_ready_to_receive (process s1)) = false).
  { subst s1. simpl. unfold get_orders. by destruct (_orders (process s)). }
  split.
  - intros Hpre.
    destruct (open_ems_run broker symbol trades_stream now
                (pre ++ ActRelayNext :: mid ++ post) s) as (book & Hbook & Hrun).
    exists book. split; [done|]. rewrite Hrun. fold s1.
    replace (pre ++ ActRelayNext :: mid ++ post) with ((pre ++ ActRelayNext :: mid) ++ post)
      by (by rewrite <- app_assoc).
    rewrite wait_ready_down by done.
    rewrite (wait_parked_in_time _ _ post s1 Hdown1 Hpre); [done|]. by apply run_gate_up.
  - intros Hpre Hno.
    destruct (open_ems_run broker symbol trades_stream now
                (pre ++ ActClock late :: post) s) as (book & _ & Hrun).
    rewrite Hrun. fold s1. rewrite wait_ready_down by done.
    rewrite (wait_parked_too_slow _ pre late post s1 Hpre); [done| |done].
    by apply run_gate_down.
Qed.

(** * Further properties of the order client *)

Section registry_facts.
Implicit Types (s : Actor) (a : action) (trace : list action) (calls : list send_call).

Lemma sent_calls_app trace1 trace2 :
  sent_calls (trace1 ++ trace2) = sent_calls trace1 ++ sent_calls trace2.
Proof. unfold sent_calls. by rewrite flat_map_app. Qed.

(** One step changes the registry only when it is a [send]. *)
Lemma step_registry a s :
  actor_wf s →
  registry (step a s).1 =
    foldl (λ m c, <[c_uuid c := call_cmd c]> m) (registry s) (sent_calls [a]).
Proof.
  intros Hwf. destruct a as [uuid symbol price sz act mode|uuid| |now].
  - destruct (step_send s uuid symbol price sz act mode) as (Hbook & _).
    unfold registry. by rewrite Hbook, send_registry.
  - destruct (step_cancel s uuid) as (Hbook & _).
    unfold registry. by rewrite Hbook, cancel_registry.
  - by destruct (step_relay s Hwf) as ((_ & Hreg & _) & _).
  - done.
Qed.

Lemma run_registry trace s :
  actor_wf s →
  registry (run trace s) =
    foldl (λ m c, <[c_uuid c := call_cmd c]> m) (registry s) (sent_calls trace).
Proof.
  revert s. induction trace as [|a trace IH]; intros s Hwf; [done|].
  change (run (a :: trace) s) with (run trace (step a s).1).
  rewrite IH by by apply step_wf. rewrite step_registry by done.
  change (a :: trace) with ([a] ++ trace). by rewrite sent_calls_app, foldl_app.
Qed.

Lemma foldl_insert_lookup_Some calls (m : gmap string pydict) (k : string) (cmd : pydict) :
  foldl (λ m c, <[c_uuid c := call_cmd c]> m) m calls !! k = Some cmd →
  m !! k = Some cmd ∨ ∃ c, c ∈ calls ∧ c_uuid c = k ∧ cmd = call_cmd c.
Proof.
  revert m. induction calls as [|c calls IH]; intros m Hk; [by left|].
  simpl in Hk. apply IH in Hk as [Hk|(c' & Hin & Hc')].
  - destruct (decide (c_uuid c = k)) as [<-|Hne].
    + rewrite lookup_insert_eq in Hk. injection Hk as <-.
      right. exists c. split; [left|done].
    + rewrite lookup_insert_ne in Hk by done. by left.
  - right. exists c'. split; [by right|done].
Qed.

(** Every entry of the registry is the command of a [send] call for the id
    it is stored under. *)
Lemma registry_entry trace (k : string) (cmd : pydict) :
  registry (run trace Actor_init) !! k = Some cmd →
  ∃ c, c ∈ sent_calls trace ∧ c_uuid c = k ∧ cmd = call_cmd c.
Proof.
  rewrite run_registry by exact I.
  intros [Hk|Hc]%foldl_insert_lookup_Some; [|done].
  assert (Hinit : registry Actor_init = ∅) by done. by rewrite Hinit in Hk.
Qed.

Lemma registry_entry_items trace (k : string) (cmd : pydict) :
  registry (run trace Actor_init) !! k = Some cmd →
  cmd !! "oid" = Some (VStr k) ∧
  ∃ sym : string, cmd !! "symbol" = Some (VStr sym).
Proof.
  intros (c & _ & <- & ->)%registry_entry.
  pose proof (order_cmd_items (c_uuid c) (c_symbol c) (c_price c) (c_size c)
                (c_action c) (c_exec_mode c)) as H. simpl in H.
  unfold call_cmd. split; [tauto|]. exists (key (c_symbol c)). tauto.
Qed.
End registry_facts.

(** X1: after any sequence of actions of a well-formed actor, the registry
    is what it was with the commands of the [send] calls stored on top, in
    call order: cancels, relay steps, clock readings and enqueues that
    failed leave no trace in it. *)
Theorem registry_tracks_sends (trace : list action) (s : Actor) :
  actor_wf s →
  registry (run trace s) =
    foldl (λ m c, <[c_uuid c := call_cmd c]> m) (registry s) (sent_calls trace).
Proof. apply run_registry. Qed.

Lemma registry_tracks_sends_witness :
  registry (run demo_trace Actor_init) =
    <["abc-2" := call_cmd sell_aapl]> (<["abc-1" := call_cmd buy_aapl]> ∅).
Proof.
  assert (Hwf : actor_wf Actor_init) by exact I.
  rewrite (registry_tracks_sends demo_trace Actor_init Hwf). reflexivity.
Defined.

(** X2: in every state the actor reaches from the start of the process, an
    entry stored under an order id is a command dict whose oid is that id
    and whose symbol is a string: the lookup of the symbol in [cancel]
    cannot fail. *)
Theorem registry_entries_well_formed (trace : list action) (k : string) (cmd : pydict) :
  registry (run trace Actor_init) !! k = Some cmd →
  cmd !! "oid" = Some (VStr k) ∧
  ∃ sym : string, cmd !! "symbol" = Some (VStr sym).
Proof. apply registry_entry_items. Qed.

Lemma registry_entries_well_formed_witness :
  call_cmd sell_aapl !! "oid" = Some (VStr "abc-2") ∧
  ∃ sym : string, call_cmd sell_aapl !! "symbol" = Some (VStr sym).
Proof.
  apply (registry_entries_well_formed demo_trace "abc-2" (call_cmd sell_aapl)).
  vm_compute. reflexivity.
Defined.

(** X3: in every state the actor reaches from the start of the process,
    [cancel] has exactly three outcomes: [KeyError] of the order id when the
    registry does not hold it; otherwise [WouldBlock] when a hundred
    commands wait in the channel; otherwise it returns [None]. *)
Theorem cancel_outcomes (trace : list action) (uuid : string) :
  let s := run trace Actor_init in
  (step (ActCancel uuid) s).2 =
    match registry s !! uuid with
    | None => Raised (KeyError uuid)
    | Some _ =>
        if decide (length (pending s) < 100) then Returned None else Raised WouldBlock
    end.
Proof.
  intros s. destruct (step_cancel s uuid) as (_ & -> & _).
  destruct (channel_capacity trace) as [Hcap _]. fold s in Hcap. unfold capacity in Hcap.
  destruct (registry s !! uuid) as [cmd|] eqn:Hcmd.
  - destruct (registry_entry_items trace uuid cmd Hcmd) as (_ & sym & Hsym).
    unfold registry, pending in *. case_decide.
    + by rewrite (cancel_room uuid _ cmd (VStr sym)) by (done || lia).
    + by rewrite (cancel_full uuid _ cmd (VStr sym)) by (done || lia).
  - unfold registry in Hcmd. by rewrite cancel_absent.
Qed.

(** X4: on a book whose channel has room for two more messages, a [send]
    followed by a [cancel] of the same order id puts the order command and
    then the cancel message for the key of the order's symbol at the end of
    the channel, and the registry keeps the order command. *)
Theorem send_then_cancel uuid symbol price sz act mode (self : OrderBook) :
  length (data (_to_ems self)) + 1 < max_buffer_size (_to_ems self) →
  let cmd := order_cmd uuid symbol price sz act mode in
  cancel uuid (send uuid symbol price sz act mode self).1 =
    ({| _to_ems := {| max_buffer_size := max_buffer_size (_to_ems self);
                      data := data (_to_ems self) ++ [cmd; cancel_msg uuid (VStr (key symbol))] |};
        _sent_orders := <[uuid := cmd]> (_sent_orders self) |}, inr ()).
Proof.
  intros Hroom cmd. rewrite send_room by lia. simpl.
  rewrite (cancel_room uuid _ cmd (VStr (key symbol))); simpl.
  - by rewrite <- app_assoc.
  - apply lookup_insert_eq.
  - pose proof (order_cmd_items uuid symbol price sz act mode) as H. simpl in H.
    unfold cmd. tauto.
  - rewrite length_app. simpl. lia.
Qed.

Lemma send_then_cancel_witness :
  cancel "abc-1" (send "abc-1" aapl 150.25%float 100%float "buy" "dark" fresh_book).1 =
    ({| _to_ems := {| max_buffer_size := 100;
                      data := [call_cmd buy_aapl; cancel_msg "abc-1" (VStr "AAPL")] |};
        _sent_orders := {["abc-1" := call_cmd buy_aapl]} |}, inr ()).
Proof.
  apply (send_then_cancel "abc-1" aapl 150.25%float 100%float "buy" "dark" fresh_book).
  simpl. lia.
Defined.

(** X5: [cancel] records nothing about the order: a second [cancel] of the
    same id succeeds like the first and enqueues the same message again. *)
Theorem cancel_twice (uuid : string) (self : OrderBook) (cmd : pydict) (symbol : value) :
  _sent_orders self !! uuid = Some cmd →
  cmd !! "symbol" = Some symbol →
  length (data (_to_ems self)) + 1 < max_buffer_size (_to_ems self) →
  cancel uuid (cancel uuid self).1 =
    ({| _to_ems := {| max_buffer_size := max_buffer_size (_to_ems self);
                      data := data (_to_ems self)
                                ++ [cancel_msg uuid symbol; cancel_msg uuid symbol] |};
        _sent_orders := _sent_orders self |}, inr ()).
Proof.
  intros Hcmd Hsym Hroom.
  rewrite (cancel_room uuid self cmd symbol) by (done || lia). simpl.
  rewrite (cancel_room uuid _ cmd symbol); simpl; try done.
  - by rewrite <- app_assoc.
  - rewrite length_app. simpl. lia.
Qed.

Lemma cancel_twice_witness :
  cancel "abc-1" (cancel "abc-1" one_order_book).1 =
    ({| _to_ems := {| max_buffer_size := 100;
                      data := [call_cmd buy_aapl; cancel_msg "abc-1" (VStr "AAPL");
                               cancel_msg "abc-1" (VStr "AAPL")] |};
        _sent_orders := {["abc-1" := call_cmd buy_aapl]} |}, inr ()).
Proof.
  apply (cancel_twice "abc-1" one_order_book (call_cmd buy_aapl) (VStr "AAPL")).
  - vm_compute. reflexivity.
  - vm_compute. reflexivity.
  - vm_compute. lia.
Defined.

Section relay_facts.
Implicit Types (s : Actor) (trace : list action).

Lemma run_relay_take_drop (n : nat) s :
  actor_wf s →
  let s' := run (replicate n ActRelayNext) s in
  relayed s' = relayed s ++ take n (pending s) ∧
  pending s' = drop n (pending s) ∧
  registry s' = registry s.
Proof.
  revert s. induction n as [|n IH]; intros s Hwf; cbv zeta.
  - change (run (replicate 0 ActRelayNext) s) with s.
    by rewrite take_0, drop_0, app_nil_r.
  - change (run (replicate (S n) ActRelayNext) s)
      with (run (replicate n ActRelayNext) (step ActRelayNext s).1).
    destruct (step_relay s Hwf) as ((Hpend & Hreg & _) & Hrel & _).
    destruct (IH (step ActRelayNext s).1 (step_wf ActRelayNext s Hwf)) as (-> & -> & ->).
    rewrite Hrel, Hpend, Hreg. destruct (pending s) as [|cmd rest]; simpl.
    + by rewrite take_nil, drop_nil, !app_nil_r.
    + by rewrite <- app_assoc.
Qed.

Lemma run_gate_up_inv trace s :
  is_set (_ready_to_receive (process s)) = false →
  is_set (_ready_to_receive (process (run trace s))) = true →
  ActRelayNext ∈ trace.
Proof.
  revert s. induction trace as [|a trace IH]; intros s Hdown Hup.
  - simpl in Hup. congruence.
  - change (run (a :: trace) s) with (run trace (step a s).1) in Hup.
    destruct a as [uuid symbol price sz act mode|uuid| |now];
      [right|right|by left|right]; (eapply IH; [|exact Hup]).
    + by destruct (step_send s uuid symbol price sz act mode) as (_ & _ & _ & _ & -> & _).
    + by destruct (step_cancel s uuid) as (_ & _ & _ & _ & -> & _).
    + done.
Qed.
End relay_facts.

(** X6: asked [n] times for its next item, the relay yields the first [n]
    commands waiting in the channel, in their order (all of them when fewer
    wait), leaves the others waiting and does not touch the registry. *)
Theorem relay_takes_from_the_head (n : nat) (s : Actor) :
  actor_wf s →
  let s' := run (replicate n ActRelayNext) s in
  relayed s' = relayed s ++ take n (pending s) ∧
  pending s' = drop n (pending s) ∧
  registry s' = registry s.
Proof. apply run_relay_take_drop. Qed.

Lemma relay_takes_from_the_head_witness :
  let s := run [ActSend "abc-1" aapl 150.25%float 100%float "buy" "dark";
                ActCancel "abc-1";
                ActSend "abc-2" aapl 151%float 10%float "sell" "live"] Actor_init in
  relayed (run (replicate 2 ActRelayNext) s) =
    [call_cmd buy_aapl; cancel_msg "abc-1" (VStr "AAPL")] ∧
  pending (run (replicate 2 ActRelayNext) s) = [call_cmd sell_aapl].
Proof.
  intros s.
  assert (Hwf : actor_wf s) by (apply run_wf; exact I).
  destruct (relay_takes_from_the_head 2 s Hwf) as (Hrel & Hpend & _).
  rewrite Hrel, Hpend.
  assert (Hs : pending s = [call_cmd buy_aapl; cancel_msg "abc-1" (VStr "AAPL");
                            call_cmd sell_aapl]) by (vm_compute; reflexivity).
  rewrite Hs. split; reflexivity.
Defined.

(** X7: a relay that found the channel empty is suspended, not finished:
    the command of the next [send] is what its next item is. *)
Theorem relay_resumes_after_empty
    (trace : list action) uuid symbol price sz act mode :
  let s := run trace Actor_init in
  pending s = [] →
  let s1 := (step ActRelayNext s).1 in
  let s2 := (step (ActSend uuid symbol price sz act mode) s1).1 in
  (step ActRelayNext s).2 = Next RelaySuspended ∧
  relayed s1 = relayed s ∧
  (step ActRelayNext s2).2 = Next (RelayYield (order_cmd uuid symbol price sz act mode)) ∧
  pending (step ActRelayNext s2).1 = [].
Proof.
  intros s Hempty s1 s2.
  assert (Hwf : actor_wf s) by (apply run_wf; exact I).
  assert (Hwf1 : actor_wf s1) by by apply step_wf.
  assert (Hwf2 : actor_wf s2) by by apply step_wf.
  destruct (step_relay s Hwf) as ((Hpend1 & _ & Hcap1) & Hrel1 & Hout1 & _).
  rewrite Hempty in *. fold s1 in Hpend1, Hrel1, Hcap1. simpl in Hpend1.
  rewrite app_nil_r in Hrel1.
  destruct (channel_capacity trace) as [Hcap _]. fold s in Hcap. unfold capacity in Hcap.
  destruct (step_send s1 uuid symbol price sz act mode) as (Hbook2 & _).
  fold s2 in Hbook2.
  assert (Hpend2 : pending s2 = [order_cmd uuid symbol price sz act mode]).
  { unfold pending in *. rewrite Hbook2, send_room; simpl.
    - by rewrite Hpend1.
    - rewrite Hpend1, Hcap1, Hcap. simpl. lia. }
  destruct (step_relay s2 Hwf2) as ((Hpend3 & _) & _ & Hout3 & _).
  rewrite Hpend2 in *. by repeat split.
Qed.

Lemma relay_resumes_after_empty_witness :
  let s1 := (step ActRelayNext Actor_init).1 in
  let s2 := (step (ActSend "abc-1" aapl 150.25%float 100%float "buy" "dark") s1).1 in
  (step ActRelayNext Actor_init).2 = Next RelaySuspended ∧
  (step ActRelayNext s2).2 = Next (RelayYield (call_cmd buy_aapl)).
Proof.
  intros s1 s2.
  assert (Hempty : pending (run [] Actor_init) = []) by reflexivity.
  destruct (relay_resumes_after_empty [] "abc-1" aapl 150.25%float 100%float "buy" "dark"
              Hempty) as (Hfirst & _ & Hnext & _).
  split; [exact Hfirst | exact Hnext].
Defined.

(** X8: from the start of the process, the readiness gate is up exactly
    when the relay has been asked for an item at least once; [send],
    [cancel] and the clock never raise it and nothing lowers it. *)
Theorem gate_up_iff_relay_started (trace : list action) :
  is_set (_ready_to_receive (process (run trace Actor_init))) = true ↔ ActRelayNext ∈ trace.
Proof.
  split.
  - by apply run_gate_up_inv.
  - intros (pre & post & ->)%list_elem_of_split. apply run_gate_up. exact I.
Qed.

(** X9: the gate is never cleared, so once the relay has started in the
    process a later [open_ems] waits for no relay and for no daemon: the
    next wake-up of the scheduler alone decides, whatever else the actor
    does before it.  When the clock then reads before the deadline,
    [open_ems] yields the pair; at the deadline or later it raises
    [TooSlowError]. *)
Theorem open_ems_gate_already_up {ReceiveStream : Type}
    (broker : string) (symbol : Symbol) (trades_stream : ReceiveStream)
    (now pass : float) (pre post : list action) (s : Actor) :
  is_set (_ready_to_receive (process s)) = true →
  forallb no_pass pre = true →
  ∃ book,
    (get_orders None (process s)).2 = inr book ∧
    (open_ems ReceiveStream broker symbol trades_stream now
       (pre ++ ActClock pass :: post) s).2 =
      if PrimFloat.leb (now + 10)%float pass then Some (inl TooSlowError)
      else Some (inr (book, trades_stream)).
Proof.
  intros Hset Hquiet.
  destruct (open_ems_run broker symbol trades_stream now (pre ++ ActClock pass :: post) s)
    as (book & Hbook & Hrun).
  exists book. split; [done|]. rewrite Hrun.
  rewrite wait_ready_up, checkpoint_next_pass; [|done|].
  - simpl. by destruct (PrimFloat.leb (now + 10)%float pass).
  - simpl. unfold get_orders. by destruct (_orders (process s)).
Qed.

Lemma open_ems_gate_already_up_witness :
  (open_ems nat "ib" aapl 7 0%float [ActCancel "abc-9"; ActClock 3%float] relay_started).2 =
    Some (inr (0, 7)).
Proof.
  assert (Hset : is_set (_ready_to_receive (process relay_started)) = true)
    by (vm_compute; reflexivity).
  assert (Hquiet : forallb no_pass [ActCancel "abc-9"] = true) by reflexivity.
  destruct (open_ems_gate_already_up "ib" aapl 7 0%float 3%float
              [ActCancel "abc-9"] [] relay_started Hset Hquiet) as (book & Hbook & Hrun).
  assert (book = 0) as -> by (vm_compute in Hbook; congruence).
  exact Hrun.
Defined.

(** X10: when a hundred commands wait and [send] fails with [WouldBlock],
    one item taken by the relay makes room: the same [send] then returns
    its command. *)
Theorem relay_step_makes_room
    (trace : list action) uuid symbol price sz act mode :
  let s := run trace Actor_init in
  length (pending s) = 100 →
  (step (ActSend uuid symbol price sz act mode) s).2 = Raised WouldBlock ∧
  (step (ActSend uuid symbol price sz act mode) (step ActRelayNext s).1).2 =
    Returned (Some (order_cmd uuid symbol price sz act mode)).
Proof.
  intros s Hlen.
  assert (Hwf : actor_wf s) by (apply run_wf; exact I).
  destruct (channel_capacity trace) as [Hcap _]. fold s in Hcap. unfold capacity in Hcap.
  split.
  - destruct (step_send s uuid symbol price sz act mode) as (_ & -> & _).
    unfold pending in Hlen. by rewrite send_full by lia.
  - destruct (step_relay s Hwf) as ((Hpend & _ & Hcap') & _).
    destruct (step_send (step ActRelayNext s).1 uuid symbol price sz act mode)
      as (_ & -> & _).
    rewrite send_room; [done|].
    unfold pending in *. rewrite Hpend, Hcap', Hcap.
    destruct (data (_to_ems (book_of (process s)))); simpl in *; lia.
Qed.

Lemma relay_step_makes_room_witness :
  let s := run (replicate 100 (ActSend "abc-1" aapl 150.25%float 100%float "buy" "dark"))
             Actor_init in
  (step (ActSend "abc-2" aapl 151%float 10%float "sell" "live") (step ActRelayNext s).1).2 =
    Returned (Some (call_cmd sell_aapl)).
Proof.
  intros s.
  assert (Hlen : length (pending s) = 100) by (vm_compute; reflexivity).
  exact (proj2 (relay_step_makes_room _ "abc-2" aapl 151%float 10%float "sell" "live" Hlen)).
Defined.

(** * Properties of the broker API proxy *)

Import brokers_core.

Section api_facts.
Context {Arg Ret Exc : Type}.
Implicit Types (brokermod : @BrokerMod Arg Ret Exc) (meth : @Method Arg Ret Exc).
Implicit Types (kwargs : gmap string Arg) (methname : string).

(** The name is looked up on [client.api] first; the client itself is only
    asked when [client.api] does not have it. *)
Lemma resolve_api_first brokermod methname meth :
  Client_api (get_client brokermod) !! methname = Some meth →
  resolve (get_client brokermod) methname = Some meth.
Proof. intros H. unfold resolve. by rewrite H. Qed.

Lemma resolve_fallback brokermod methname :
  Client_api (get_client brokermod) !! methname = None →
  resolve (get_client brokermod) methname = Client_attrs (get_client brokermod) !! methname.
Proof. intros H. unfold resolve. by rewrite H. Qed.

(** A name found on neither gives [None], not an exception. *)
Lemma api_not_found brokermod methname kwargs :
  resolve (get_client brokermod) methname = None →
  (api brokermod methname kwargs).2 = inr None.
Proof.
  unfold api, resolve, getattr. intros H.
  destruct (Client_api _ !! methname); [done|]. by rewrite H.
Qed.

(** With keyword arguments, or for a method without parameters, the method
    is called and its outcome is that of [api]. *)
Lemma api_invokes brokermod methname kwargs meth :
  resolve (get_client brokermod) methname = Some meth →
  size kwargs ≠ 0 ∨ parameters meth = [] →
  (api brokermod methname kwargs).2 = awaited meth kwargs.
Proof.
  unfold api, resolve, getattr. intros H Hcall.
  destruct (Client_api _ !! methname) as [m|].
  - injection H as ->. case_decide; [|done].
    destruct Hcall as [?| ->]; done.
  - rewrite H. case_decide; [|done].
    destruct Hcall as [?| ->]; done.
Qed.

(** Without keyword arguments, a method whose signature has a parameter, of
    whatever kind and with or without default, is not called. *)
Lemma api_has_parameters brokermod methname kwargs meth :
  resolve (get_client brokermod) methname = Some meth →
  size kwargs = 0 → parameters meth ≠ [] →
  (api brokermod methname kwargs).2 = inr None.
Proof.
  unfold api, resolve, getattr. intros H Hempty Hparams.
  destruct (Client_api _ !! methname) as [m|].
  - injection H as ->. rewrite decide_True by done.
    by destruct (parameters meth).
  - rewrite H. rewrite decide_True by done. by destruct (parameters meth).
Qed.

Lemma api_missing_arguments brokermod methname kwargs meth :
  resolve (get_client brokermod) methname = Some meth →
  size kwargs = 0 → requires_arguments meth = true →
  (api brokermod methname kwargs).2 = inr None.
Proof.
  intros H Hempty Hreq. apply (api_has_parameters _ _ _ meth); [done|done|].
  unfold requires_arguments in Hreq. by destruct (parameters meth).
Qed.
End api_facts.

(** C8 fails on the code at a method that has parameters but requires no
    argument: called through [api] without keyword arguments, the method is
    not invoked and [api] returns [None], though calling it without
    arguments is well defined. *)
Theorem api_rejects_defaulted_parameters :
  resolve (get_client demo_broker) "quotes" = Some quotes ∧
  requires_arguments quotes = false ∧
  awaited quotes ∅ = inr (Some "all") ∧
  api demo_broker "quotes" ∅ =
    ([Error_arguments_required "quotes" ["ids"]], inr None).
Proof. repeat split; vm_compute; reflexivity. Qed.

(** * Further properties of the broker API layer *)

Section api_more.
Context {Arg Ret Exc : Type}.
Implicit Types (brokermod : @BrokerMod Arg Ret Exc) (meth : @Method Arg Ret Exc).
Implicit Types (kwargs : gmap string Arg) (methname : string).

(** What [api] does, by cases on the method the name resolves to. *)
Lemma api_cases brokermod methname kwargs :
  api brokermod methname kwargs =
    let warn := match Client_api (get_client brokermod) !! methname with
                | None => [Warning_not_on_api]
                | Some _ => []
                end in
    match resolve (get_client brokermod) methname with
    | None => (warn ++ [Error_no_method methname], inr None)
    | Some meth =>
        if decide (size kwargs = 0 ∧ parameters meth ≠ [])
        then (warn ++ [Error_arguments_required methname (p_name <$> parameters meth)],
              inr None)
        else (warn, awaited meth kwargs)
    end.
Proof.
  unfold api, resolve, getattr.
  destruct (Client_api _ !! methname) as [m|]; simpl.
  - destruct (decide (size kwargs = 0)), (parameters m) eqn:Hp; simpl;
      case_decide; naive_solver.
  - destruct (Client_attrs _ !! methname) as [m|]; [|done].
    destruct (decide (size kwargs = 0)), (parameters m) eqn:Hp; simpl;
      case_decide; naive_solver.
Qed.
End api_more.

(** X12: a name that [client.api] has is taken from there: the attributes
    of the client itself play no part in the outcome or in the log, and no
    warning is logged. *)
Theorem api_prefers_api_namespace {Arg Ret Exc : Type}
    (on_api attrs1 attrs2 : gmap string (@Method Arg Ret Exc))
    (methname : string) (kwargs : gmap string Arg) :
  is_Some (on_api !! methname) →
  api {| get_client := {| Client_api := on_api; Client_attrs := attrs1 |} |} methname kwargs =
    api {| get_client := {| Client_api := on_api; Client_attrs := attrs2 |} |} methname kwargs ∧
  Warning_not_on_api ∉
    (api {| get_client := {| Client_api := on_api; Client_attrs := attrs1 |} |}
       methname kwargs).1.
Proof.
  intros [meth Hmeth]. rewrite !api_cases. unfold resolve. simpl. rewrite Hmeth.
  split; [done|]. case_decide; simpl; set_solver.
Qed.

Lemma api_prefers_api_namespace_witness :
  api shadowing_broker "quotes" {["ids" := "AAPL"]} = api demo_broker "quotes" {["ids" := "AAPL"]}.
Proof.
  apply (api_prefers_api_namespace {["quotes" := quotes]}
           {["quotes" := ping; "ping" := ping]} ∅ "quotes" {["ids" := "AAPL"]}).
  vm_compute. eauto.
Defined.

(** X13: [api] returns [None] of its own exactly when it has logged an
    error record, either that no method of that name exists or that
    arguments are required; and it logs the warning exactly when
    [client.api] does not have the name. *)
Theorem api_soft_failures_are_logged {Arg Ret Exc : Type}
    (brokermod : @BrokerMod Arg Ret Exc) (methname : string) (kwargs : gmap string Arg) :
  ((api brokermod methname kwargs).2 = inr None ↔
   Error_no_method methname ∈ (api brokermod methname kwargs).1 ∨
   ∃ names, Error_arguments_required methname names ∈ (api brokermod methname kwargs).1) ∧
  (Warning_not_on_api ∈ (api brokermod methname kwargs).1 ↔
   Client_api (get_client brokermod) !! methname = None).
Proof.
  rewrite api_cases. cbv zeta.
  destruct (Client_api (get_client brokermod) !! methname) as [m0|] eqn:Hapi;
    destruct (resolve (get_client brokermod) methname) as [meth|];
    try case_decide; simpl; unfold awaited;
    (split; [split|]);
    try (destruct (call meth kwargs)); set_solver.
Qed.

(** X14: with keyword arguments, the signature of the method is not
    consulted: whatever parameters it has, the method is called with them
    and [api] gives the outcome of the call. *)
Theorem api_with_kwargs_calls {Arg Ret Exc : Type}
    (brokermod : @BrokerMod Arg Ret Exc) (methname : string)
    (kwargs : gmap string Arg) (meth : @Method Arg Ret Exc) :
  size kwargs ≠ 0 →
  resolve (get_client brokermod) methname = Some meth →
  (api brokermod methname kwargs).2 = awaited meth kwargs ∧
  ∀ rec, rec ∈ (api brokermod methname kwargs).1 → rec = Warning_not_on_api.
Proof.
  intros Hkw Hres. rewrite api_cases. cbv zeta. rewrite Hres.
  rewrite decide_False by tauto. simpl. split; [done|].
  destruct (Client_api _ !! methname); set_solver.
Qed.

Lemma api_with_kwargs_calls_witness :
  (api demo_broker "quotes" {["ids" := "AAPL"]}).2 = inr (Some "AAPL").
Proof.
  assert (Hkw : size ({["ids" := "AAPL"]} : gmap string string) ≠ 0)
    by (rewrite map_size_singleton; lia).
  assert (Hres : resolve (get_client demo_broker) "quotes" = Some quotes)
    by (vm_compute; reflexivity).
  exact (proj1 (api_with_kwargs_calls demo_broker "quotes" _ quotes Hkw Hres)).
Defined.

Section data_facts.
Context {Quote Chains IdVal Expiry Exc : Type}.
Implicit Types (brokermod : @DataBrokerMod Quote Chains IdVal Expiry Exc).
Implicit Types (results : list (string * option Quote)).

(** The loop of [stocks_quote] appends one warning per missing quote. *)
Lemma warn_loop results (log : list data_log) :
  foldl (λ log kv,
           match kv.2 with
           | None => log ++ [Warn_symbol_not_found kv.1]
           | Some _ => log
           end) log results =
    log ++ omap (λ kv : string * option Quote,
                   match kv.2 with
                   | None => Some (Warn_symbol_not_found kv.1)
                   | Some _ => None
                   end) results.
Proof.
  revert log. induction results as [|[key [q|]] results IH]; intros log; simpl.
  - by rewrite app_nil_r.
  - apply IH.
  - rewrite IH. by rewrite <- app_assoc.
Qed.
End data_facts.

(** X15: [stocks_quote] returns the quotes dict of the client as it is, also
    when tickers were not found, and logs a warning for exactly the tickers
    whose quote is [None], in the order of the dict. *)
Theorem stocks_quote_warns_missing {Quote Chains IdVal Expiry Exc : Type}
    (brokermod : @DataBrokerMod Quote Chains IdVal Expiry Exc)
    (tickers : list string) (results : list (string * option Quote)) :
  quote (get_data_client brokermod) tickers = inr results →
  (stocks_quote brokermod tickers).2 = inr results ∧
  (∀ key, Warn_symbol_not_found key ∈ (stocks_quote brokermod tickers).1 ↔
          (key, None) ∈ results) ∧
  (stocks_quote brokermod tickers).1 =
    omap (λ kv : string * option Quote,
            match kv.2 with
            | None => Some (Warn_symbol_not_found kv.1)
            | Some _ => None
            end) results.
Proof.
  intros Hquote. unfold stocks_quote. rewrite Hquote. simpl.
  rewrite warn_loop. simpl. split; [done|]. split; [|done].
  intros key. rewrite list_elem_of_omap. split.
  - intros ([k [q|]] & Hin & Hw); simpl in Hw; [done|]. by injection Hw as ->.
  - intros Hin. by exists (key, None).
Qed.

Lemma stocks_quote_warns_missing_witness :
  stocks_quote one_symbol_broker ["AAPL"; "ZZZZ"] =
    ([Warn_symbol_not_found "ZZZZ"], inr [("AAPL", Some "150.25"); ("ZZZZ", None)]).
Proof.
  assert (Hquote : quote (get_data_client one_symbol_broker) ["AAPL"; "ZZZZ"] =
                     inr [("AAPL", Some "150.25"); ("ZZZZ", None)]) by reflexivity.
  destruct (stocks_quote_warns_missing one_symbol_broker _ _ Hquote) as (Hres & _ & Hlog).
  destruct (stocks_quote one_symbol_broker ["AAPL"; "ZZZZ"]) as [log res].
  simpl in *. by rewrite Hres, Hlog.
Defined.

(** X16: with a date, [option_chain] looks the symbol up in the id table
    that the client returns; a symbol that the table does not have raises
    [KeyError] of the symbol, and a value on which [int] raises makes
    [option_chain] raise at that point, before any chain is requested. *)
Theorem option_chain_unknown_symbol {Quote Chains IdVal Expiry Exc : Type}
    (int : IdVal → option Z)
    (brokermod : @DataBrokerMod Quote Chains IdVal Expiry Exc)
    (symbol date : string) (ids : gmap string IdVal) :
  date ≠ "" →
  tickers2ids (get_data_client brokermod) [symbol] = inr ids →
  (ids !! symbol = None →
   option_chain int brokermod symbol (Some date) = inl (DataKeyError symbol)) ∧
  (∀ v, ids !! symbol = Some v → int v = None →
   option_chain int brokermod symbol (Some date) = inl DataIntError).
Proof.
  intros Hdate Hids. unfold option_chain, date_given.
  apply String.eqb_neq in Hdate. rewrite Hdate, Hids. simpl.
  split; [by intros ->|]. by intros v -> ->.
Qed.

Lemma option_chain_unknown_symbol_witness :
  option_chain int_of_id one_symbol_broker "ZZZZ" (Some "2020-01-17") =
    inl (DataKeyError "ZZZZ").
Proof.
  assert (Hdate : "2020-01-17" ≠ "") by discriminate.
  assert (Hids : tickers2ids (get_data_client one_symbol_broker) ["ZZZZ"] =
                   inr {["AAPL" := "8049"]}) by reflexivity.
  apply (proj1 (option_chain_unknown_symbol int_of_id one_symbol_broker "ZZZZ" _ _ Hdate Hids)).
  vm_compute. reflexivity.
Defined.

(** X17: with a date, [option_chain] asks for the chain of one contract id
    and that one expiry, and the client's list of all contracts plays no
    part; without a date, or with the empty string as date, it asks for the
    chains of exactly what [contracts] returns for the symbol. *)
Theorem option_chain_requests {Quote Chains IdVal Expiry Exc : Type}
    (int : IdVal → option Z)
    (brokermod : @DataBrokerMod Quote Chains IdVal Expiry Exc)
    (symbol date : string) (ids : gmap string IdVal) (v : IdVal) (id : Z) :
  date ≠ "" →
  tickers2ids (get_data_client brokermod) [symbol] = inr ids →
  ids !! symbol = Some v → int v = Some id →
  option_chain int brokermod symbol (Some date) =
    awaiting (option_chains (get_data_client brokermod) {[id := {[date := None]}]}) ∧
  option_chain int brokermod symbol None =
    match contracts brokermod symbol with
    | inl e => inl e
    | inr all => awaiting (option_chains (get_data_client brokermod) all)
    end ∧
  option_chain int brokermod symbol (Some "") = option_chain int brokermod symbol None.
Proof.
  intros Hdate Hids Hv Hint. split; [|done].
  unfold option_chain, date_given.
  apply String.eqb_neq in Hdate. rewrite Hdate, Hids. simpl. by rewrite Hv, Hint.
Qed.

Lemma option_chain_requests_witness :
  option_chain int_of_id one_symbol_broker "AAPL" (Some "2020-01-17") = inr "chains".
Proof.
  assert (Hdate : "2020-01-17" ≠ "") by discriminate.
  assert (Hids : tickers2ids (get_data_client one_symbol_broker) ["AAPL"] =
                   inr {["AAPL" := "8049"]}) by reflexivity.
  assert (Hv : ({["AAPL" := "8049"]} : gmap string string) !! "AAPL" = Some "8049")
    by (vm_compute; reflexivity).
  assert (Hint : int_of_id "8049" = Some 8049%Z) by reflexivity.
  rewrite (proj1 (option_chain_requests int_of_id one_symbol_broker "AAPL" _ _ _ _
                    Hdate Hids Hv Hint)).
  reflexivity.
Defined.
